(** * ENV Monitor: a model of [src/App.tsx] and of the [config] module

    The dashboard polls a time-series database for three metrics and shows
    each as a chart with a "latest value" card.  This file embeds the
    component's data shaping ([next], [getLatestValue]), its state updates
    ([fetchInfluxData], [fetchData], the mount effect and its cleanup), the
    configuration object and the part of the render function that picks what
    is shown, and proves properties of them.

    [src/App.tsx] holds two revisions of the component.  The definitions
    without suffix follow the later one (the second listing); the two
    functions that differ in the earlier one are embedded with the suffix
    [_r1]. *)

From Stdlib Require Import Ascii.
From stdpp Require Import base option list strings gmap pretty.

Local Open Scope string_scope.
Local Open Scope list_scope.
Local Open Scope nat_scope.

(** ** The host: what the JavaScript runtime provides

    Numbers, the raw [_time] column of a row and the three built-ins the
    component calls on them are not code of the repository; the model is
    generic in them. *)

Class Host := {
  number : Type;                        (* JavaScript numbers *)
  timestamp : Type;                     (* what the [_time] column holds *)
  Date_getTime : timestamp → number;    (* new Date(t).getTime() *)
  toFixed : number → nat → string;      (* x.toFixed(digits) *)
  toLocaleString : number → string;     (* new Date(ms).toLocaleString('ja-JP', ...) *)
}.

(** A property read on a JavaScript object: a value, [null], or
    [undefined] (also what reading an absent property gives). *)
Inductive Nullable (A : Type) : Type :=
  | present (a : A)
  | null
  | undefined.
Arguments present {A} a.
Arguments null {A}.
Arguments undefined {A}.

(** [v != null] *)
Definition not_nullish {A} (v : Nullable A) : bool :=
  match v with present _ => true | _ => false end.

(** Exceptions and completions of the functions that index arrays. *)
Inductive Exn := TypeError.

Inductive Completion (A : Type) : Type :=
  | Normal (a : A)
  | Throw (e : Exn).
Arguments Normal {A} a.
Arguments Throw {A} e.

Global Instance Completion_ret : MRet Completion := λ A a, Normal a.
Global Instance Completion_bind : MBind Completion := λ A B k c,
  match c with Normal a => k a | Throw e => Throw e end.

Section Model.
Context `{Host}.

(** ** Data model *)

(** [tableMeta.toObject(row)]: the two columns the component reads. *)
Record Row := { _time : timestamp; _value : Nullable number }.

(** [interface ChartData { time: number; value: number }]; at run time
    [value] may be missing. *)
Record ChartData := { time : number; value : Nullable number }.

(** ** Metric fetcher: the [next] callback (lines 203-216)

    [results.push(...)] on the array the closure owns. *)
Definition next (results : list ChartData) (obj : Row) : list ChartData :=
  if not_nullish (_value obj)
  then results ++ [ {| time := Date_getTime (_time obj); value := _value obj |} ]
  else results ++ [ {| time := Date_getTime (_time obj); value := undefined |} ].

(** The earlier revision (lines 41-47) copies [obj._value] as it is. *)
Definition next_r1 (results : list ChartData) (obj : Row) : list ChartData :=
  results ++ [ {| time := Date_getTime (_time obj); value := _value obj |} ].

(** ** Chart renderer: [getLatestValue] (lines 258-269)

    [scan data n] is the loop [for (i = n - 1; i >= 0; i--)]; reading
    [data[i].value] past the end of the array throws. *)
Fixpoint scan (data : list ChartData) (n : nat) : Completion string :=
  match n with
  | O => Normal "N/A"
  | S i =>
      match data !! i with
      | None => Throw TypeError
      | Some d =>
          match value d with
          | present v => Normal (toFixed v 1)
          | _ => scan data i
          end
      end
  end.

Definition getLatestValue (data : list ChartData) : Completion string :=
  if decide (length data = 0) then Normal "N/A"
  else scan data (length data).

(** The earlier revision (lines 89-93) looks at the last point only. *)
Definition getLatestValue_r1 (data : list ChartData) : Completion string :=
  if decide (length data = 0) then Normal "N/A"
  else
    match data !! (length data - 1) with
    | None => Throw TypeError
    | Some latestData =>
        match value latestData with
        | present v => Normal (toFixed v 1)
        | _ => Normal "N/A"
        end
    end.

(** ** Configuration (the [config] module that [App.tsx] imports)

    [process.env] maps the names of the defined variables to their values;
    [js_or v d] is [v || d] for a string-or-undefined [v]. *)
Record InfluxDBConfig := {
  url : string;
  org : string;
  bucket : string;
  token : string;
}.

Record Config := { influxDB : InfluxDBConfig }.

Definition js_or (v : option string) (d : string) : string :=
  match v with
  | Some s => if decide (s = "") then d else s
  | None => d
  end.

Definition config (env : gmap string string) : Config :=
  {| influxDB :=
       {| url := js_or (env !! "REACT_APP_INFLUXDB_URL") "";
          org := js_or (env !! "REACT_APP_INFLUXDB_ORG") "";
          bucket := js_or (env !! "REACT_APP_INFLUXDB_BUCKET") "";
          token := js_or (env !! "REACT_APP_INFLUXDB_TOKEN") "" |} |}.

(** ** Component state (lines 175-180)

    A series held in React state is a reference to an array: the literal
    [[]] given to [useState], or the [results] array of a query, which the
    query's [next] callback keeps pushing to. *)
Inductive ArrayRef :=
  | empty_literal
  | results_of (q : nat).

Record AppState := {
  temperatureData : ArrayRef;
  humidityData : ArrayRef;
  pressureData : ArrayRef;
  loading : bool;
  error : bool;
}.

Definition setTemperatureData (d : ArrayRef) (s : AppState) : AppState :=
  {| temperatureData := d; humidityData := humidityData s;
     pressureData := pressureData s; loading := loading s; error := error s |}.

Definition setHumidityData (d : ArrayRef) (s : AppState) : AppState :=
  {| temperatureData := temperatureData s; humidityData := d;
     pressureData := pressureData s; loading := loading s; error := error s |}.

Definition setPressureData (d : ArrayRef) (s : AppState) : AppState :=
  {| temperatureData := temperatureData s; humidityData := humidityData s;
     pressureData := d; loading := loading s; error := error s |}.

Definition setLoading (b : bool) (s : AppState) : AppState :=
  {| temperatureData := temperatureData s; humidityData := humidityData s;
     pressureData := pressureData s; loading := b; error := error s |}.

Definition setError (b : bool) (s : AppState) : AppState :=
  {| temperatureData := temperatureData s; humidityData := humidityData s;
     pressureData := pressureData s; loading := loading s; error := b |}.

(** The three setters [fetchInfluxData] is called with, as data. *)
Inductive Setter := SetTemperatureData | SetHumidityData | SetPressureData.

Global Instance Setter_eq_dec : EqDecision Setter.
Proof. solve_decision. Defined.

Definition call (f : Setter) : ArrayRef → AppState → AppState :=
  match f with
  | SetTemperatureData => setTemperatureData
  | SetHumidityData => setHumidityData
  | SetPressureData => setPressureData
  end.

(** The series a setter writes. *)
Definition series (f : Setter) (s : AppState) : ArrayRef :=
  match f with
  | SetTemperatureData => temperatureData s
  | SetHumidityData => humidityData s
  | SetPressureData => pressureData s
  end.

(** ** The world around the component

    A [Query] is what one call of [queryApi.queryRows] leaves behind: the
    request that was sent (client [url], [token], [org]; the Flux text is
    fixed but for [bucket] and [field]) and the closure of its three
    callbacks ([setData] and the [results] array). *)
Record Query := {
  api_url : string;
  api_token : string;
  api_org : string;
  flux_bucket : string;
  field : string;
  setData : Setter;
  results : list ChartData;
}.

Definition push_row (obj : Row) (c : Query) : Query :=
  {| api_url := api_url c; api_token := api_token c; api_org := api_org c;
     flux_bucket := flux_bucket c; field := field c; setData := setData c;
     results := next (results c) obj |}.

Record World := {
  state : AppState;            (* the five [useState] cells *)
  queries : list Query;        (* queries sent so far; the index is the handle *)
  timers : gset nat;           (* interval timers the browser holds *)
  next_timer : nat;            (* the id the next [setInterval] returns *)
  cleanup : option nat;        (* the [interval] the effect's cleanup captured *)
  fetchData_calls : nat;       (* ghost: how many times [fetchData] has run *)
}.

Definition with_state (f : AppState → AppState) (w : World) : World :=
  {| state := f (state w); queries := queries w; timers := timers w;
     next_timer := next_timer w; cleanup := cleanup w;
     fetchData_calls := fetchData_calls w |}.

Definition with_queries (f : list Query → list Query) (w : World) : World :=
  {| state := state w; queries := f (queries w); timers := timers w;
     next_timer := next_timer w; cleanup := cleanup w;
     fetchData_calls := fetchData_calls w |}.

(** Reading a series. *)
Definition deref (w : World) (r : ArrayRef) : list ChartData :=
  match r with
  | empty_literal => []
  | results_of q => from_option results [] (queries w !! q)
  end.

Definition initial : World :=
  {| state := {| temperatureData := empty_literal; humidityData := empty_literal;
                 pressureData := empty_literal; loading := true; error := false |};
     queries := []; timers := ∅; next_timer := 0; cleanup := None;
     fetchData_calls := 0 |}.

Section Component.
Variable env : gmap string string.

(** ** [fetchInfluxData] (lines 186-231)

    What the call does before it returns depends on the client library:
    the constructor in line 187 may throw (outside the [try]: the promise
    of the async function is rejected), [queryRows] may throw (inside the
    [try]: caught, the promise is fulfilled), or the query is sent.  In
    every case the function returns without waiting for the query's
    callbacks: [queryRows] is not awaited. *)
Inductive Attempt := Issued | QueryRowsThrows | ClientThrows.

Inductive Promise := Fulfilled | Rejected.

Definition fetchInfluxData (field : string) (setData : Setter) (a : Attempt)
    (w : World) : World * Promise :=
  let cfg := influxDB (config env) in
  match a with
  | ClientThrows => (w, Rejected)
  | QueryRowsThrows => (with_state (setError true) w, Fulfilled)
  | Issued =>
      (with_queries (λ qs, qs ++ [ {| api_url := url cfg; api_token := token cfg;
                                       api_org := org cfg; flux_bucket := bucket cfg;
                                       field := field; setData := setData;
                                       results := [] |} ]) w,
       Fulfilled)
  end.

(** ** [fetchData] (lines 235-249)

    The three calls are made one after the other, then [Promise.all] is
    awaited; a rejected promise lands in [catch]; [finally] clears the
    loading flag.  The three promises are settled when the calls return,
    so the continuation runs as a microtask, before the client can deliver
    any callback: the whole function is one step. *)
Record Attempts := {
  for_temperature : Attempt;
  for_humidity : Attempt;
  for_pressure : Attempt;
}.

Definition fulfilled (p : Promise) : bool :=
  match p with Fulfilled => true | Rejected => false end.

Definition fetchData (a : Attempts) (w : World) : World :=
  let w := with_state (setLoading true) w in
  let '(w, p1) := fetchInfluxData "temperature" SetTemperatureData (for_temperature a) w in
  let '(w, p2) := fetchInfluxData "humidity" SetHumidityData (for_humidity a) w in
  let '(w, p3) := fetchInfluxData "pressure" SetPressureData (for_pressure a) w in
  let w := if fulfilled p1 && fulfilled p2 && fulfilled p3 then w
           else with_state (setError true) w in
  let w := with_state (setLoading false) w in
  {| state := state w; queries := queries w; timers := timers w;
     next_timer := next_timer w; cleanup := cleanup w;
     fetchData_calls := S (fetchData_calls w) |}.

(** ** The callbacks given to [queryRows] (lines 203-225)

    [next] pushes to the query's [results], [error] logs and sets the error
    flag, [complete] hands the [results] array itself to [setData].  There
    is nothing to call back on a handle no query has. *)
Inductive Callback :=
  | OnNext (row : Row)
  | OnError
  | OnComplete.

Definition deliver (q : nat) (cb : Callback) (w : World) : World :=
  match queries w !! q with
  | None => w
  | Some c =>
      match cb with
      | OnNext row => with_queries (λ qs, <[q := push_row row c]> qs) w
      | OnError => with_state (setError true) w
      | OnComplete => with_state (call (setData c) (results_of q)) w
      end
  end.

(** ** The mount effect and its cleanup (lines 234-255)

    [setInterval] hands out a fresh id and the browser keeps the timer
    until [clearInterval] is called with that id; a timer that is no longer
    held does not call back. *)
Definition useEffect (a : Attempts) (w : World) : World :=
  let w := fetchData a w in
  let interval := next_timer w in
  {| state := state w; queries := queries w;
     timers := {[interval]} ∪ timers w; next_timer := S interval;
     cleanup := Some interval; fetchData_calls := fetchData_calls w |}.

Definition clearInterval (interval : nat) (w : World) : World :=
  {| state := state w; queries := queries w;
     timers := timers w ∖ {[interval]}; next_timer := next_timer w;
     cleanup := cleanup w; fetchData_calls := fetchData_calls w |}.

Definition useEffect_cleanup (w : World) : World :=
  match cleanup w with
  | None => w
  | Some interval =>
      let w := clearInterval interval w in
      {| state := state w; queries := queries w; timers := timers w;
         next_timer := next_timer w; cleanup := None;
         fetchData_calls := fetchData_calls w |}
  end.

(** ** Events and runs *)
Inductive Event :=
  | Mount (a : Attempts)                    (* React runs the effect *)
  | IntervalElapsed (id : nat) (a : Attempts)  (* 60 s have passed on timer [id] *)
  | Unmount                                 (* React runs the cleanup *)
  | Deliver (q : nat) (cb : Callback).      (* the client calls back on query [q] *)

Definition step (ev : Event) (w : World) : World :=
  match ev with
  | Mount a => useEffect a w
  | IntervalElapsed id a => if decide (id ∈ timers w) then fetchData a w else w
  | Unmount => useEffect_cleanup w
  | Deliver q cb => deliver q cb w
  end.

Fixpoint run (evs : list Event) (w : World) : World :=
  match evs with
  | [] => w
  | ev :: evs => run evs (step ev w)
  end.

(** ** Rendering (lines 272-353)

    Only what decides the text that is shown is kept: the summary card of
    each chart and the "Updated at" line. *)
Record ChartView := {
  chart_title : string;
  chart_summary : string;
  chart_data : list ChartData;
  chart_stroke : string;
  chart_fill : string;
}.

Definition renderChart (title : string) (data : list ChartData)
    (color fillColor unit : string) : Completion ChartView :=
  latestValue ← getLatestValue data;
  mret {| chart_title := title;
          chart_summary := if decide (latestValue ≠ "N/A")
                           then latestValue +:+ unit
                           else "No data available";
          chart_data := data; chart_stroke := color; chart_fill := fillColor |}.

Inductive View :=
  | LoadingMessage
  | ErrorMessage
  | Dashboard (updated_at : string) (charts : list ChartView).

Definition updated_at (data : list ChartData) : Completion string :=
  if decide (0 < length data) then
    match data !! (length data - 1) with
    | None => Throw TypeError
    | Some d => Normal (toLocaleString (time d))
    end
  else Normal "N/A".

Definition App (w : World) : Completion View :=
  let s := state w in
  if loading s then Normal LoadingMessage
  else if error s then Normal ErrorMessage
  else
    stamp ← updated_at (deref w (temperatureData s));
    t ← renderChart "Temperature" (deref w (temperatureData s))
          "#8884d8" "rgba(136, 132, 216, 0.3)" "℃";
    h ← renderChart "Humidity" (deref w (humidityData s))
          "#ff7300" "rgba(255, 115, 0, 0.3)" "%";
    p ← renderChart "Pressure" (deref w (pressureData s))
          "#82ca9d" "rgba(130, 202, 157, 0.3)" "hPa";
    mret (Dashboard stamp [t; h; p]).

End Component.
End Model.

(** * Vocabulary of the properties *)

Section Vocabulary.
Context `{Host}.

(** A point without a value. *)
Definition valueless (d : ChartData) : Prop := not_nullish (value d) = false.

(** The point [next] pushes for a row. *)
Definition point (obj : Row) : ChartData :=
  {| time := Date_getTime (_time obj);
     value := if not_nullish (_value obj) then _value obj else undefined |}.

(** The callbacks a run delivers to query [q], in order, and the rows
    among them. *)
Definition callback_for (q : nat) (ev : Event) : option Callback :=
  match ev with
  | Deliver q' cb => if decide (q' = q) then Some cb else None
  | _ => None
  end.

Definition stream_of (q : nat) (evs : list Event) : list Callback :=
  omap (callback_for q) evs.

Definition row_of (cb : Callback) : option Row :=
  match cb with OnNext row => Some row | _ => None end.

Definition rows_for (q : nat) (evs : list Event) : list Row :=
  omap row_of (stream_of q evs).

(** The stream of a query that succeeds, and of one that fails, after
    delivering [rows]. *)
Definition completes_with (rows : list Row) : list Callback :=
  (OnNext <$> rows) ++ [OnComplete].

Definition fails_after (rows : list Row) : list Callback :=
  (OnNext <$> rows) ++ [OnError].

(** A query has settled once its [complete] or [error] callback ran. *)
Definition is_complete (cb : Callback) : bool :=
  match cb with OnComplete => true | _ => false end.

Definition is_error (cb : Callback) : bool :=
  match cb with OnError => true | _ => false end.

Definition completed (q : nat) (evs : list Event) : bool :=
  existsb is_complete (stream_of q evs).

Definition errored (q : nat) (evs : list Event) : bool :=
  existsb is_error (stream_of q evs).

Definition settled (q : nat) (evs : list Event) : bool :=
  completed q evs || errored q evs.

Definition is_delivery (ev : Event) : Prop :=
  match ev with Deliver _ _ => True | _ => False end.

(** Events that are callbacks of the queries [lo], ..., [hi - 1]. *)
Definition delivery_in (lo hi : nat) (ev : Event) : Prop :=
  match ev with
  | Deliver q _ => lo ≤ q < hi
  | _ => False
  end.

Definition not_mount (ev : Event) : Prop :=
  match ev with Mount _ => False | _ => True end.

(** The attempt a cycle makes for a setter, and the handle of the query
    it sends when the cycle starts with [n] queries already sent. *)
Definition attempt (a : Attempts) (f : Setter) : Attempt :=
  match f with
  | SetTemperatureData => for_temperature a
  | SetHumidityData => for_humidity a
  | SetPressureData => for_pressure a
  end.

Definition sent (x : Attempt) : nat :=
  match x with Issued => 1 | _ => 0 end.

Definition handle (a : Attempts) (n : nat) (f : Setter) : nat :=
  match f with
  | SetTemperatureData => n
  | SetHumidityData => n + sent (for_temperature a)
  | SetPressureData => n + sent (for_temperature a) + sent (for_humidity a)
  end.

Definition all_issued : Attempts :=
  {| for_temperature := Issued; for_humidity := Issued; for_pressure := Issued |}.

Definition threw (x : Attempt) : bool :=
  match x with Issued => false | _ => true end.

(** Events in which nothing fails: no [error] callback, and a cycle that
    starts sends its three queries. *)
Definition no_failure (ev : Event) : Prop :=
  match ev with
  | Mount a | IntervalElapsed _ a => a = all_issued
  | Unmount => True
  | Deliver _ cb => is_error cb = false
  end.

(** In the run [evs], query [q] completes and after that no query whose
    setter is [f] does; [qs] are the queries at the end of the run. *)
Definition last_completion (f : Setter) (q : nat) (evs : list Event)
    (qs : list Query) : Prop :=
  ∃ evs1 evs2,
    evs = evs1 ++ Deliver q OnComplete :: evs2
    ∧ ∀ q' c', qs !! q' = Some c' → setData c' = f → completed q' evs2 = false.

(** The queries one cycle sends. *)
Definition query_of (env : gmap string string) (field : string) (f : Setter) : Query :=
  let cfg := influxDB (config env) in
  {| api_url := url cfg; api_token := token cfg; api_org := org cfg;
     flux_bucket := bucket cfg; field := field; setData := f; results := [] |}.

Definition sent_query (env : gmap string string) (x : Attempt)
    (field : string) (f : Setter) : list Query :=
  match x with Issued => [query_of env field f] | _ => [] end.

Definition new_queries (env : gmap string string) (a : Attempts) : list Query :=
  sent_query env (for_temperature a) "temperature" SetTemperatureData
  ++ sent_query env (for_humidity a) "humidity" SetHumidityData
  ++ sent_query env (for_pressure a) "pressure" SetPressureData.

(** A connection parameter resolves from the variable [name]. *)
Definition resolves (env : gmap string string) (name param : string) : Prop :=
  (∀ v, env !! name = Some v → param = v) ∧ (env !! name = None → param = "").

Definition incomplete (cfg : InfluxDBConfig) : Prop :=
  url cfg = "" ∨ org cfg = "" ∨ bucket cfg = "" ∨ token cfg = "".

(** The only timer the browser holds is the one the cleanup will clear. *)
Definition timer_owned (w : World) : Prop :=
  timers w = match cleanup w with Some interval => {[interval]} | None => ∅ end.

End Vocabulary.

(** ** A host to evaluate the model on examples

    Numbers are decimals with one fractional digit, held as a count of
    tenths ([204] is 20.4); a timestamp is already its epoch milliseconds.
    [toFixed] prints the sign, the integer part and the requested digits,
    rounding half up on the magnitude when no digit is asked for. *)
Definition tenths_toFixed (x : Z) (digits : nat) : string :=
  let sign := if decide (x < 0)%Z then "-" else "" in
  let m := Z.abs x in
  match digits with
  | O => sign +:+ pretty ((m + 5) `div` 10)%Z
  | S k => sign +:+ pretty (m `div` 10)%Z +:+ "." +:+ pretty (m `mod` 10)%Z
             +:+ String.concat "" (replicate k "0")
  end.

Definition tenths_host : Host :=
  {| number := Z; timestamp := Z; Date_getTime := id;
     toFixed := tenths_toFixed; toLocaleString := pretty |}.

Definition sample (t : Z) (v : Nullable Z) : @ChartData tenths_host :=
  @Build_ChartData tenths_host t v.

(** The series of the specification's example, and the same series with
    the value of its last point missing. *)
Definition example_series : list (@ChartData tenths_host) :=
  [ sample 0 (present 201%Z); sample 300000 null; sample 600000 (present 204%Z) ].

Definition example_series_gap : list (@ChartData tenths_host) :=
  [ sample 0 (present 201%Z); sample 300000 null; sample 600000 undefined ].

Definition sample_row (t : Z) (v : Nullable Z) : @Row tenths_host :=
  @Build_Row tenths_host t v.

(** The rows behind [example_series], as the database would deliver them. *)
Definition example_rows : list (@Row tenths_host) :=
  [ sample_row 0 (present 201%Z); sample_row 300000 null;
    sample_row 600000 (present 204%Z) ].

(** An environment that defines the endpoint and nothing else. *)
Definition example_env : gmap string string :=
  {[ "REACT_APP_INFLUXDB_URL" := "https://influx.example" ]}.

(** The world once the component has mounted and sent its three queries. *)
Definition mounted : @World tenths_host :=
  run example_env [Mount all_issued] initial.

(** The temperature rows arrive interleaved with callbacks of the two
    other queries. *)
Definition temperature_arrives : list (@Event tenths_host) :=
  [ Deliver 0 (OnNext (sample_row 0 (present 201%Z)));
    Deliver 1 (OnNext (sample_row 0 (present 550%Z)));
    Deliver 0 (OnNext (sample_row 300000 null));
    Deliver 2 OnError;
    Deliver 0 (OnNext (sample_row 600000 (present 204%Z))) ].

(** A whole cycle in which the three queries complete. *)
Definition all_complete (n : nat) : list (@Event tenths_host) :=
  [ Deliver (n + 1) (OnNext (sample_row 0 (present 550%Z)));
    Deliver n (OnNext (sample_row 0 (present 201%Z)));
    Deliver (n + 2) OnComplete;
    Deliver n (OnNext (sample_row 300000 null));
    Deliver (n + 1) OnComplete;
    Deliver n (OnNext (sample_row 600000 (present 204%Z)));
    Deliver n OnComplete ].

(** A whole cycle in which the humidity query reports an error. *)
Definition humidity_fails : list (@Event tenths_host) :=
  [ Deliver 0 (OnNext (sample_row 0 (present 201%Z)));
    Deliver 1 (OnNext (sample_row 0 (present 550%Z)));
    Deliver 1 OnError;
    Deliver 2 OnComplete;
    Deliver 0 OnComplete ].

(** The world once the component has mounted and sent its three queries,
    none of which has called back yet. *)
Definition in_flight : @World tenths_host :=
  fetchData example_env all_issued initial.

(** A second cycle (queries 3, 4, 5) that runs while the first one
    (queries 0, 1, 2) is still in flight: a row and the completion of the
    first temperature query arrive in between. *)
Definition overlapping_cycle : list (@Event tenths_host) :=
  [ Deliver 0 (OnNext (sample_row 0 (present 100%Z)));
    Deliver 3 (OnNext (sample_row 0 (present 201%Z)));
    Deliver 0 OnComplete;
    Deliver 4 (OnNext (sample_row 0 (present 550%Z)));
    Deliver 4 OnComplete;
    Deliver 3 (OnNext (sample_row 300000 null));
    Deliver 3 (OnNext (sample_row 600000 (present 204%Z)));
    Deliver 5 OnComplete;
    Deliver 3 OnComplete ].

(** The world after a first cycle in which the humidity fetch failed. *)
Definition after_failed_cycle : @World tenths_host :=
  run example_env (Mount all_issued :: humidity_fails) initial.

(** * The rest of the component and of the build

    The Flux text that [fetchInfluxData] sends, the formatters that
    [renderChart] hands to the chart, and the definitions the bundler derives
    from the [.env] file. *)

(** The characters a string literal cannot hold. *)
Definition dquote : string := String "034"%char "".
Definition newline : string := String "010"%char "".

(** [fluxQuery] (lines 190-197): the template literal, with [bucket] and
    [field] spliced in as they are. *)
Definition fluxQuery (bucket field : string) : string :=
  newline
  +:+ "      from(bucket: " +:+ dquote +:+ bucket +:+ dquote +:+ ")" +:+ newline
  +:+ "        |> range(start: -24h)" +:+ newline
  +:+ "        |> filter(fn: (r) => r._measurement == " +:+ dquote +:+ "ac_remote"
  +:+ dquote +:+ " and r.client_id == " +:+ dquote +:+ "ESP32Client-4f1da0d8"
  +:+ dquote +:+ ")" +:+ newline
  +:+ "        |> filter(fn: (r) => r._field == " +:+ dquote +:+ field +:+ dquote
  +:+ ")" +:+ newline
  +:+ "        |> aggregateWindow(every: 5m, fn: mean)" +:+ newline
  +:+ "        |> yield(name: " +:+ dquote +:+ "mean" +:+ dquote +:+ ")" +:+ newline
  +:+ "    ".

(** The fixed text before the bucket, between bucket and field, and after
    the field. *)
Definition flux_pre : string := newline +:+ "      from(bucket: " +:+ dquote.

Definition flux_mid : string :=
  dquote +:+ ")" +:+ newline
  +:+ "        |> range(start: -24h)" +:+ newline
  +:+ "        |> filter(fn: (r) => r._measurement == " +:+ dquote +:+ "ac_remote"
  +:+ dquote +:+ " and r.client_id == " +:+ dquote +:+ "ESP32Client-4f1da0d8"
  +:+ dquote +:+ ")" +:+ newline
  +:+ "        |> filter(fn: (r) => r._field == " +:+ dquote.

Definition flux_post : string :=
  dquote +:+ ")" +:+ newline
  +:+ "        |> aggregateWindow(every: 5m, fn: mean)" +:+ newline
  +:+ "        |> yield(name: " +:+ dquote +:+ "mean" +:+ dquote +:+ ")" +:+ newline
  +:+ "    ".

(** [s.replace(/\//g, '-')] *)
Fixpoint replace_slashes (s : string) : string :=
  match s with
  | EmptyString => EmptyString
  | String c s =>
      String (if decide (c = "/"%char) then "-"%char else c) (replace_slashes s)
  end.

(** [s.padStart(targetLength, padString)]: the pad string is repeated and
    cut to the missing length; a string that is long enough, or an empty
    pad string, leaves [s] as it is. *)
Fixpoint filler (n : nat) (padString rest : string) : string :=
  match n with
  | O => EmptyString
  | S k =>
      match rest with
      | String c r => String c (filler k padString r)
      | EmptyString =>
          match padString with
          | String c r => String c (filler k padString r)
          | EmptyString => EmptyString
          end
      end
  end.

Definition padStart (s : string) (targetLength : nat) (padString : string) : string :=
  if decide (targetLength ≤ String.length s) then s
  else if decide (padString = "") then s
  else filler (targetLength - String.length s) padString padString +:+ s.

(** [n.toString()] for what [getHours] and [getMinutes] return: a
    non-negative integer, or [NaN] ([None]) on an invalid date. *)
Definition Number_toString (n : option nat) : string :=
  match n with Some n => pretty n | None => "NaN" end.

Section Formatters.
Context `{Host}.

(** The text of a query. *)
Definition query_text (c : Query) : string := fluxQuery (flux_bucket c) (field c).

(** The field each setter is paired with in [fetchData] (lines 240-242). *)
Definition field_of (f : Setter) : string :=
  match f with
  | SetTemperatureData => "temperature"
  | SetHumidityData => "humidity"
  | SetPressureData => "pressure"
  end.

(** [Tooltip]'s [labelFormatter] (lines 302-312) and [formatter] (line 313). *)
Definition labelFormatter (value : number) : string :=
  replace_slashes (toLocaleString value).

Definition formatter (unit : string) (value : number) : string :=
  toFixed value 1 +:+ unit.

(** [XAxis]'s [tickFormatter] (lines 292-295); [getHours] and [getMinutes]
    are those of [new Date(tick)], in the browser's time zone. *)
Definition tickFormatter (getHours getMinutes : number → option nat)
    (tick : number) : string :=
  padStart (Number_toString (getHours tick)) 2 "0" +:+ ":"
  +:+ padStart (Number_toString (getMinutes tick)) 2 "0".

(** ** More vocabulary *)

(** No series refers to an array that does not exist. *)
Definition refs_valid (w : World) : Prop :=
  ∀ f q, series f (state w) = results_of q → q < length (queries w).

(** How often the interval [id] elapses in a run. *)
Fixpoint ticks (id : nat) (evs : list Event) : nat :=
  match evs with
  | [] => 0
  | IntervalElapsed id' _ :: evs => (if decide (id' = id) then 1 else 0) + ticks id evs
  | _ :: evs => ticks id evs
  end.

Definition no_lifecycle (ev : Event) : Prop :=
  match ev with Mount _ | Unmount => False | _ => True end.

(** Events other than a [complete] callback. *)
Definition no_completion (ev : Event) : Prop :=
  match ev with Deliver _ OnComplete => False | _ => True end.

(** What a query was sent with. *)
Definition same_request (c1 c2 : Query) : Prop :=
  api_url c1 = api_url c2 ∧ api_token c1 = api_token c2 ∧ api_org c1 = api_org c2
  ∧ flux_bucket c1 = flux_bucket c2 ∧ field c1 = field c2 ∧ setData c1 = setData c2.

(** Two points that show the same: the same number, or none on both sides. *)
Definition same_value (d1 d2 : ChartData) : Prop :=
  ∀ v, value d1 = present v ↔ value d2 = present v.

(** What a query of the component looks like under the environment [env]. *)
Definition well_sent (env : gmap string string) (c : Query) : Prop :=
  api_url c = url (influxDB (config env))
  ∧ api_token c = token (influxDB (config env))
  ∧ api_org c = org (influxDB (config env))
  ∧ query_text c = fluxQuery (bucket (influxDB (config env))) (field_of (setData c)).

(** A variable the configuration cannot use: not defined, or empty. *)
Definition unusable (env : gmap string string) (name : string) : Prop :=
  env !! name = None ∨ env !! name = Some "".

End Formatters.

(** ** The bundler configuration (the [webpack] module, lines 6-13)

    [parsed] is what [dotenv.config().parsed] gives: the entries of the
    [.env] file in key order, or [undefined] when the file could not be
    read, in which case [Object.keys] throws.  [JSON_stringify] is the
    built-in on strings. *)
Definition envKeys (JSON_stringify : string → string)
    (parsed : option (list (string * string))) : Completion (gmap string string) :=
  match parsed with
  | None => Throw TypeError
  | Some env =>
      Normal (foldl (λ prev '(next, v), <["process.env." +:+ next := JSON_stringify v]> prev)
                ∅ env)
  end.

(** ** Example hosts for the formatters *)

(** Hours and minutes of an epoch time in milliseconds, in UTC. *)
Definition utc_hours (t : Z) : option nat :=
  Some (Z.to_nat ((t `div` 3600000) `mod` 24)).

Definition utc_minutes (t : Z) : option nat :=
  Some (Z.to_nat ((t `div` 60000) `mod` 60)).

(** Quotes around the text: what [JSON.stringify] gives on a string that
    needs no escaping. *)
Definition quoted (s : string) : string := dquote +:+ s +:+ dquote.

Definition example_dotenv : list (string * string) :=
  [ ("REACT_APP_INFLUXDB_URL", "https://influx.example");
    ("REACT_APP_INFLUXDB_ORG", "home") ].

(** * Properties *)

Section Properties.
Context `{Host}.

(** ** [getLatestValue] *)

Lemma scan_hit (data : list ChartData) i d v :
  data !! i = Some d → value d = present v →
  scan data (S i) = Normal (toFixed v 1).
Proof. intros Hd Hv. simpl. by rewrite Hd, Hv. Qed.

Lemma scan_gap (data : list ChartData) i d :
  data !! i = Some d → valueless d → scan data (S i) = scan data i.
Proof.
  intros Hd Hv. simpl. rewrite Hd.
  unfold valueless in Hv. by destruct (value d).
Qed.

(** The loop walks back over a run of points without a value. *)
Lemma scan_skip (pre gaps : list ChartData) k :
  Forall valueless gaps → k ≤ length gaps →
  scan (pre ++ gaps) (length pre + k) = scan (pre ++ gaps) (length pre).
Proof.
  intros Hgaps. induction k as [|k IH]; intros Hk.
  - by rewrite Nat.add_0_r.
  - destruct (lookup_lt_is_Some_2 gaps k) as [g Hg]; [lia|].
    rewrite Nat.add_succ_r, (scan_gap _ _ g).
    + apply IH. lia.
    + by rewrite lookup_app_r, Nat.add_comm, Nat.add_sub by lia.
    + by eapply Forall_lookup_1.
Qed.

(** The loop never reads past the end of the array. *)
Lemma scan_total (data : list ChartData) n :
  n ≤ length data → ∃ s, scan data n = Normal s.
Proof.
  induction n as [|n IH]; intros Hn; [by eexists|].
  destruct (lookup_lt_is_Some_2 data n) as [d Hd]; [lia|].
  simpl. rewrite Hd. destruct (value d); eauto with lia.
Qed.

Lemma getLatestValue_total (data : list ChartData) :
  ∃ s, getLatestValue data = Normal s.
Proof.
  unfold getLatestValue. case_decide; [by eexists|]. by apply scan_total.
Qed.

Lemma getLatestValue_skip_back (pre gaps : list ChartData) d v :
  value d = present v → Forall valueless gaps →
  getLatestValue (pre ++ d :: gaps) = Normal (toFixed v 1).
Proof.
  intros Hv Hgaps. unfold getLatestValue.
  case_decide as Hlen; [rewrite length_app in Hlen; simpl in Hlen; lia|].
  replace (pre ++ d :: gaps) with ((pre ++ [d]) ++ gaps) by by rewrite <-app_assoc.
  rewrite (length_app (pre ++ [d])), scan_skip by done.
  rewrite length_app. simpl. rewrite Nat.add_1_r.
  apply (scan_hit _ _ d); [|done].
  rewrite lookup_app_l by (rewrite length_app; simpl; lia).
  by rewrite lookup_app_r, Nat.sub_diag by lia.
Qed.

Lemma getLatestValue_no_value (data : list ChartData) :
  Forall valueless data → getLatestValue data = Normal "N/A".
Proof.
  intros Hall. unfold getLatestValue. case_decide; [done|].
  by apply (scan_skip [] data (length data)).
Qed.

(** C1. [getLatestValue] gives the value of the last point, to one decimal,
    when that point has a value; when the series ends in [K] points
    without a value it gives the value of the point before them, the most
    recent one that has a value; and when no point has a value (the empty
    series included) it gives ["N/A"]. *)
Theorem getLatestValue_latest_displayable (data : list ChartData) :
  (∀ pre d v,
     data = pre ++ [d] → value d = present v →
     getLatestValue data = Normal (toFixed v 1)) ∧
  (∀ pre d v gaps,
     data = pre ++ d :: gaps → value d = present v → Forall valueless gaps →
     getLatestValue data = Normal (toFixed v 1)) ∧
  (Forall valueless data → getLatestValue data = Normal "N/A").
Proof.
  split_and!.
  - intros pre d v -> Hv. by apply getLatestValue_skip_back.
  - intros pre d v gaps -> Hv Hgaps. by apply getLatestValue_skip_back.
  - apply getLatestValue_no_value.
Qed.

(** ** The [next] callback *)

Lemma next_point (acc : list ChartData) obj : next acc obj = acc ++ [point obj].
Proof. unfold next, point. by destruct (not_nullish (_value obj)). Qed.

Lemma push_row_results obj (c : Query) :
  results (push_row obj c) = results c ++ [point obj].
Proof. apply next_point. Qed.

Lemma push_rows_results rows (c : Query) :
  results (foldl (flip push_row) c rows) = results c ++ (point <$> rows).
Proof.
  revert c. induction rows as [|obj rows IH]; intros c; simpl.
  - by rewrite app_nil_r.
  - by rewrite IH, push_row_results, <-app_assoc.
Qed.

Lemma push_rows_setData rows (c : Query) :
  setData (foldl (flip push_row) c rows) = setData c.
Proof. revert c. induction rows as [|obj rows IH]; intros c; simpl; [done|by rewrite IH]. Qed.

(** ** What one cycle does before any callback *)

Section Runs.
Variable env : gmap string string.

Lemma fetchData_queries a w :
  queries (fetchData env a w) = queries w ++ new_queries env a.
Proof.
  destruct a as [[] [] []]; unfold fetchData, new_queries; simpl;
    rewrite <-?app_assoc, ?app_nil_r; done.
Qed.

(** [fetchData] returns with the loading flag already cleared, whether or
    not any of the queries it sent has called back. *)
Lemma fetchData_loading a w : loading (state (fetchData env a w)) = false.
Proof. by destruct a as [[] [] []]. Qed.

Lemma fetchData_error a w :
  error (state (fetchData env a w))
  = error (state w) || threw (for_temperature a) || threw (for_humidity a)
    || threw (for_pressure a).
Proof. destruct a as [[] [] []]; simpl; by destruct (error (state w)). Qed.

Lemma fetchData_series a w f :
  series f (state (fetchData env a w)) = series f (state w).
Proof. by destruct a as [[] [] []], f. Qed.

Lemma fetchData_timers a w :
  timers (fetchData env a w) = timers w ∧ cleanup (fetchData env a w) = cleanup w.
Proof. by destruct a as [[] [] []]. Qed.

Lemma fetchData_counts a w :
  fetchData_calls (fetchData env a w) = S (fetchData_calls w).
Proof. by destruct a as [[] [] []]. Qed.

(** The query a cycle sends for a setter sits at its handle. *)
Lemma new_queries_handle a f (qs : list Query) :
  attempt a f = Issued →
  (qs ++ new_queries env a) !! handle a (length qs) f
  = Some (query_of env (match f with
                        | SetTemperatureData => "temperature"
                        | SetHumidityData => "humidity"
                        | SetPressureData => "pressure"
                        end) f).
Proof.
  intros Hf. rewrite lookup_app_r by (destruct f; simpl; lia).
  destruct a as [[] [] []], f; simpl in *; try done;
    match goal with
    | |- _ !! ?i = _ =>
        first [ replace i with 0 by lia | replace i with 1 by lia
              | replace i with 2 by lia ]
    end; done.
Qed.

(** ** What a run does to the arrays *)

Lemma rows_for_cons q ev evs : rows_for q (ev :: evs) = rows_for q [ev] ++ rows_for q evs.
Proof.
  unfold rows_for, stream_of. simpl.
  destruct (callback_for q ev) as [cb|]; simpl; [|done].
  by destruct (row_of cb).
Qed.

Lemma step_lookup_exact ev w q c :
  queries w !! q = Some c →
  queries (step env ev w) !! q = Some (foldl (flip push_row) c (rows_for q [ev])).
Proof.
  intros Hq. destruct ev as [a|id a| |q' cb]; simpl.
  - unfold useEffect. simpl. rewrite fetchData_queries. by apply lookup_app_l_Some.
  - case_decide; [|done]. rewrite fetchData_queries. by apply lookup_app_l_Some.
  - unfold useEffect_cleanup. by destruct (cleanup w).
  - unfold deliver, rows_for, stream_of. simpl.
    destruct (queries w !! q') as [c0|] eqn:Hq'.
    + destruct cb as [row| |]; simpl.
      * case_decide as Heq.
        -- subst q'. simplify_eq. simpl.
           apply list_lookup_insert_eq. by eapply lookup_lt_Some.
        -- simpl. by rewrite list_lookup_insert_ne.
      * by case_decide.
      * by case_decide.
    + case_decide; [congruence|done].
Qed.

Lemma run_lookup_exact evs w q c :
  queries w !! q = Some c →
  queries (run env evs w) !! q = Some (foldl (flip push_row) c (rows_for q evs)).
Proof.
  revert w c. induction evs as [|ev evs IH]; intros w c Hq; [done|].
  simpl. rewrite (rows_for_cons q ev evs), foldl_app.
  by apply IH, step_lookup_exact.
Qed.


Lemma run_lookup evs w q c :
  queries w !! q = Some c →
  ∃ c', queries (run env evs w) !! q = Some c' ∧ setData c' = setData c
        ∧ results c' = results c ++ (point <$> rows_for q evs).
Proof.
  intros Hq. eexists. split; [by apply run_lookup_exact|].
  by rewrite push_rows_setData, push_rows_results.
Qed.

Lemma step_length ev w :
  is_delivery ev → length (queries (step env ev w)) = length (queries w).
Proof.
  destruct ev as [| | |q cb]; try done. intros _. simpl. unfold deliver.
  destruct (queries w !! q); [|done].
  destruct cb; simpl; by rewrite ?length_insert.
Qed.

Lemma run_length evs w :
  Forall is_delivery evs → length (queries (run env evs w)) = length (queries w).
Proof.
  revert w. induction evs as [|ev evs IH]; intros w Hevs; [done|].
  apply Forall_cons in Hevs as [Hev Hevs]. simpl.
  by rewrite IH, step_length.
Qed.


(** ** What a run does to the flags and the series *)

Lemma series_call f g r s :
  series f (call g r s) = if decide (f = g) then r else series f s.
Proof. by destruct f, g. Qed.

Lemma stream_of_deliver q q' cb evs :
  stream_of q (Deliver q' cb :: evs)
  = if decide (q' = q) then cb :: stream_of q evs else stream_of q evs.
Proof. unfold stream_of. simpl. by case_decide. Qed.

Lemma deliver_loading q cb w : loading (state (deliver q cb w)) = loading (state w).
Proof.
  unfold deliver. destruct (queries w !! q) as [c|]; [|done].
  destruct cb; simpl; try done. by destruct (setData c).
Qed.

Lemma deliver_error q cb w :
  error (state (deliver q cb w))
  = error (state w) || (is_error cb && bool_decide (q < length (queries w))).
Proof.
  unfold deliver. destruct (queries w !! q) as [c|] eqn:Hq.
  - apply lookup_lt_Some in Hq. rewrite bool_decide_true by done.
    destruct cb; simpl; rewrite ?orb_false_r, ?orb_true_r; try done.
    by destruct (setData c).
  - apply lookup_ge_None in Hq. rewrite bool_decide_false by lia.
    by rewrite andb_false_r, orb_false_r.
Qed.

Lemma deliver_series q cb w f :
  series f (state (deliver q cb w))
  = match queries w !! q with
    | Some c => if is_complete cb && bool_decide (f = setData c)
                then results_of q else series f (state w)
    | None => series f (state w)
    end.
Proof.
  unfold deliver. destruct (queries w !! q) as [c|]; [|done].
  destruct cb; simpl; try done.
  rewrite series_call. by destruct (decide (f = setData c)); [rewrite bool_decide_true|rewrite bool_decide_false].
Qed.


Lemma step_length_mono ev w : length (queries w) ≤ length (queries (step env ev w)).
Proof.
  destruct ev as [a|id a| |q cb]; simpl.
  - unfold useEffect. simpl. rewrite fetchData_queries, length_app. lia.
  - case_decide; [|done]. rewrite fetchData_queries, length_app. lia.
  - unfold useEffect_cleanup. by destruct (cleanup w).
  - pose proof (step_length (Deliver q cb) w I) as Hl. simpl in Hl. lia.
Qed.

(** No event clears the error flag. *)
Lemma step_error_sticky ev w :
  error (state w) = true → error (state (step env ev w)) = true.
Proof.
  intros He. destruct ev as [a|id a| |q cb]; simpl.
  - unfold useEffect. simpl. by rewrite fetchData_error, He.
  - case_decide; [|done]. by rewrite fetchData_error, He.
  - unfold useEffect_cleanup. by destruct (cleanup w).
  - by rewrite deliver_error, He.
Qed.

Lemma run_error_sticky evs w :
  error (state w) = true → error (state (run env evs w)) = true.
Proof.
  revert w. induction evs as [|ev evs IH]; intros w He; [done|].
  simpl. by apply IH, step_error_sticky.
Qed.





(** ** The metric fetcher *)

Lemma run_app evs1 evs2 w : run env (evs1 ++ evs2) w = run env evs2 (run env evs1 w).
Proof. revert w. induction evs1 as [|ev evs1 IH]; intros w; [done|apply IH]. Qed.

(** What [setData] receives when the stream of a fresh query completes. *)
Lemma fetch_output w q c evs :
  queries w !! q = Some c → results c = [] →
  let w' := run env (evs ++ [Deliver q OnComplete]) w in
  deref w' (series (setData c) (state w')) = point <$> rows_for q evs.
Proof.
  intros Hq Hfresh. simpl. rewrite run_app. simpl.
  destruct (run_lookup evs w q c Hq) as (c' & Hq' & Hset & Hres).
  rewrite deliver_series, Hq', Hset. simpl. rewrite bool_decide_true by done.
  unfold deliver. rewrite Hq'. simpl. rewrite Hq'. simpl. by rewrite Hres, Hfresh.
Qed.

(** C2. When the stream of a query completes, the series handed to
    [setData] has exactly one point per row the query received, in the
    order the rows came: the point at each position carries the time of the
    row at that position, and its value when the row has one. *)
Theorem fetch_one_point_per_row w q c evs :
  queries w !! q = Some c → results c = [] →
  let w' := run env (evs ++ [Deliver q OnComplete]) w in
  let output := deref w' (series (setData c) (state w')) in
  length output = length (rows_for q evs) ∧
  ∀ i obj, rows_for q evs !! i = Some obj →
    ∃ d, output !! i = Some d ∧ time d = Date_getTime (_time obj)
         ∧ ∀ v, _value obj = present v → value d = present v.
Proof.
  intros Hq Hfresh w' output. subst w' output.
  rewrite (fetch_output w q c evs Hq Hfresh). split.
  - by rewrite length_fmap.
  - intros i obj Hi. exists (point obj). split_and!.
    + by rewrite list_lookup_fmap, Hi.
    + done.
    + intros v Hv. simpl. by rewrite Hv.
Qed.

(** C3. A row whose value is [null] or absent still gives a point, at the
    row's position and with the row's time; the value of that point is
    unset: it is no number at all, so not 0. *)
Theorem fetch_gap_keeps_time_axis w q c evs i obj :
  queries w !! q = Some c → results c = [] →
  rows_for q evs !! i = Some obj → not_nullish (_value obj) = false →
  let w' := run env (evs ++ [Deliver q OnComplete]) w in
  let output := deref w' (series (setData c) (state w')) in
  output !! i = Some {| time := Date_getTime (_time obj); value := undefined |}
  ∧ (∀ d x, output !! i = Some d → value d ≠ present x)
  ∧ length output = length (rows_for q evs).
Proof.
  intros Hq Hfresh Hi Hgap w' output. subst w' output.
  rewrite (fetch_output w q c evs Hq Hfresh).
  assert (Hpt : (point <$> rows_for q evs) !! i
                = Some {| time := Date_getTime (_time obj); value := undefined |}).
  { rewrite list_lookup_fmap, Hi. simpl. unfold point. by rewrite Hgap. }
  split_and!; [done| |by rewrite length_fmap].
  intros d x Hd. rewrite Hpt in Hd. by simplify_eq.
Qed.

(** ** One fetch that succeeds *)


Lemma rows_of_completes rows : omap row_of (completes_with rows) = rows.
Proof.
  unfold completes_with. rewrite omap_app. simpl. rewrite app_nil_r.
  induction rows as [|obj rows IH]; [done|]. simpl. by f_equal.
Qed.

Lemma rows_of_fails rows : omap row_of (fails_after rows) = rows.
Proof.
  unfold fails_after. rewrite omap_app. simpl. rewrite app_nil_r.
  induction rows as [|obj rows IH]; [done|]. simpl. by f_equal.
Qed.





(** ** One poll cycle *)

Lemma delivery_in_is_delivery lo hi evs :
  Forall (delivery_in lo hi) evs → Forall is_delivery evs.
Proof. intros Hevs. eapply Forall_impl; [done|]. by intros []. Qed.

Lemma stream_out_of_range lo hi q evs :
  Forall (delivery_in lo hi) evs → ¬ (lo ≤ q < hi) → stream_of q evs = [].
Proof.
  intros Hevs Hq. induction Hevs as [|ev evs Hev _ IH]; [done|].
  destruct ev as [| | |q' cb]; try done. simpl in Hev.
  rewrite stream_of_deliver, IH. case_decide; [lia|done].
Qed.

(** Among the queries of one cycle a setter is used once, at its handle. *)
Lemma new_queries_setter a (qs : list Query) q c :
  (qs ++ new_queries env a) !! q = Some c → length qs ≤ q →
  q = handle a (length qs) (setData c).
Proof.
  intros Hq Hge. rewrite lookup_app_r in Hq by done.
  assert (q = length qs + (q - length qs)) as Hsplit by lia.
  revert Hq Hsplit. generalize (q - length qs). intros k Hq ->.
  destruct a as [[] [] []]; simpl in Hq;
    repeat (destruct k as [|k]; simpl in Hq; simplify_eq; simpl; try lia).
Qed.





Lemma step_loading_false ev w :
  loading (state w) = false → loading (state (step env ev w)) = false.
Proof.
  intros Hl. destruct ev as [a|id a| |q cb]; cbn [step].
  - unfold useEffect. cbn [state]. apply fetchData_loading.
  - case_decide; [apply fetchData_loading|done].
  - unfold useEffect_cleanup. by destruct (cleanup w).
  - by rewrite deliver_loading.
Qed.

Lemma run_loading_false evs w :
  loading (state w) = false → loading (state (run env evs w)) = false.
Proof.
  revert w. induction evs as [|ev evs IH]; intros w Hl; [done|].
  simpl. by apply IH, step_loading_false.
Qed.

Lemma step_error_quiet ev w :
  no_failure ev → error (state (step env ev w)) = error (state w).
Proof.
  intros Hev. destruct ev as [a|id a| |q cb]; cbn [step]; simpl in Hev.
  - subst a. unfold useEffect. cbn [state]. rewrite fetchData_error. simpl.
    by rewrite !orb_false_r.
  - subst a. case_decide; [|done]. rewrite fetchData_error. simpl.
    by rewrite !orb_false_r.
  - unfold useEffect_cleanup. by destruct (cleanup w).
  - by rewrite deliver_error, Hev, orb_false_r.
Qed.

Lemma run_error_quiet evs w :
  Forall no_failure evs → error (state (run env evs w)) = error (state w).
Proof.
  revert w. induction evs as [|ev evs IH]; intros w Hevs; [done|].
  apply Forall_cons in Hevs as [Hev Hevs]. simpl.
  by rewrite IH, step_error_quiet.
Qed.

(** A series changes only when a query of its setter completes. *)
Lemma run_series_last evs w f :
  (∀ q c, queries (run env evs w) !! q = Some c → setData c = f →
          completed q evs = false) →
  series f (state (run env evs w)) = series f (state w).
Proof.
  revert w. induction evs as [|ev evs IH]; intros w Hno; [done|].
  cbn [run] in *. rewrite IH.
  - destruct ev as [a|id a| |q cb]; cbn [step].
    + unfold useEffect. cbn [state]. apply fetchData_series.
    + case_decide; [apply fetchData_series|done].
    + unfold useEffect_cleanup. by destruct (cleanup w).
    + rewrite deliver_series. destruct (queries w !! q) as [c|] eqn:Hq; [|done].
      destruct (is_complete cb) eqn:Hcb; [|done]. simpl.
      case_bool_decide as Hf; [|done]. exfalso.
      destruct (run_lookup (Deliver q cb :: evs) w q c Hq) as (c' & Hq' & Hset & _).
      cbn [run step] in Hq'.
      assert (Hc' : setData c' = f) by congruence.
      specialize (Hno q c' Hq' Hc'). unfold completed in Hno.
      rewrite stream_of_deliver, decide_True in Hno by done.
      simpl in Hno. by rewrite Hcb in Hno.
  - intros q c Hq Hset. specialize (Hno q c Hq Hset). unfold completed in *.
    destruct ev as [a|id a| |q' cb]; try exact Hno.
    rewrite stream_of_deliver in Hno. case_decide; [|done].
    simpl in Hno. by apply orb_false_iff in Hno as [_ ?].
Qed.

Lemma last_completion_series w q c evs :
  queries w !! q = Some c →
  last_completion (setData c) q evs (queries (run env evs w)) →
  series (setData c) (state (run env evs w)) = results_of q.
Proof.
  intros Hq (evs1 & evs2 & -> & Hlast).
  rewrite run_app in *. cbn [run] in *.
  rewrite run_series_last by done. cbn [step].
  destruct (run_lookup evs1 w q c Hq) as (c1 & Hq1 & Hset & _).
  rewrite deliver_series, Hq1, Hset. simpl. by rewrite bool_decide_true.
Qed.

(** C4 (amended). A cycle in which all three fetches succeed ends with the
    loading flag false.  The series of a metric then holds the points this
    cycle fetched for it, provided the cycle's query for that metric is the
    last query for that metric to complete (cycles may overlap, and a query
    of another cycle that completes later takes the series over).  The
    error flag is never cleared: a flag that was set when the cycle started
    is still set at its end, and the flag ends as it started provided
    nothing fails while the cycle runs (no error callback, no attempt of a
    cycle starting meanwhile that throws). *)
Theorem successful_cycle w evs rowsT rowsH rowsP :
  let n := length (queries w) in
  stream_of n evs = completes_with rowsT →
  stream_of (n + 1) evs = completes_with rowsH →
  stream_of (n + 2) evs = completes_with rowsP →
  let w' := run env evs (fetchData env all_issued w) in
  loading (state w') = false
  ∧ (last_completion SetTemperatureData n evs (queries w') →
       deref w' (temperatureData (state w')) = point <$> rowsT)
  ∧ (last_completion SetHumidityData (n + 1) evs (queries w') →
       deref w' (humidityData (state w')) = point <$> rowsH)
  ∧ (last_completion SetPressureData (n + 2) evs (queries w') →
       deref w' (pressureData (state w')) = point <$> rowsP)
  ∧ (error (state w) = true → error (state w') = true)
  ∧ (Forall no_failure evs → error (state w') = error (state w)).
Proof.
  intros n HT HH HP w'.
  assert (Hcycle : ∀ f rows,
            stream_of (handle all_issued n f) evs = completes_with rows →
            last_completion f (handle all_issued n f) evs (queries w') →
            deref w' (series f (state w')) = point <$> rows).
  { intros f rows Hstream Hlast.
    assert (Hf : attempt all_issued f = Issued) by by destruct f.
    pose proof (new_queries_handle all_issued f (queries w) Hf) as Hq.
    rewrite <-fetchData_queries in Hq. fold n in Hq.
    unfold w'. rewrite (last_completion_series _ _ _ _ Hq) by done.
    cbn [deref]. rewrite (run_lookup_exact _ _ _ _ Hq). simpl.
    rewrite push_rows_results. unfold rows_for.
    by rewrite Hstream, rows_of_completes. }
  split_and!.
  - subst w'. apply run_loading_false, fetchData_loading.
  - by apply (Hcycle SetTemperatureData).
  - by apply (Hcycle SetHumidityData).
  - replace (n + 2) with (n + 1 + 1) in * by lia.
    by apply (Hcycle SetPressureData).
  - intros He. subst w'. apply run_error_sticky.
    by rewrite fetchData_error, He.
  - intros Hquiet. subst w'. rewrite run_error_quiet, fetchData_error by done.
    simpl. by rewrite !orb_false_r.
Qed.

(** The provisos hold for a cycle that runs on its own: when only
    callbacks of its own three queries arrive and each query delivers rows
    and completes, each of them is the last of its metric to complete and
    nothing fails. *)
Lemma stream_split q evs cbs :
  stream_of q evs = cbs ++ [OnComplete] →
  ∃ evs1 evs2, evs = evs1 ++ Deliver q OnComplete :: evs2 ∧ stream_of q evs2 = [].
Proof.
  revert cbs. induction evs as [|ev evs IH]; intros cbs Hs.
  - by destruct cbs.
  - assert (Hrest : ∀ cbs', stream_of q evs = cbs' ++ [OnComplete] →
              ∃ evs1 evs2, ev :: evs = evs1 ++ Deliver q OnComplete :: evs2
                           ∧ stream_of q evs2 = []).
    { intros cbs' Hs'. destruct (IH cbs' Hs') as (evs1 & evs2 & -> & Hnil).
      by exists (ev :: evs1), evs2. }
    destruct ev as [a|id a| |q' cb]; try (by apply (Hrest cbs)).
    rewrite stream_of_deliver in Hs. case_decide as Heq; [|by apply (Hrest cbs)].
    subst q'. destruct cbs as [|cb' cbs]; simpl in Hs.
    + injection Hs as -> Hnil. by exists [], evs.
    + injection Hs as -> Hs. by apply (Hrest cbs).
Qed.

Lemma completes_no_error (rows : list Row) :
  Forall (λ cb, is_error cb = false) (completes_with rows).
Proof.
  apply Forall_app. split; [|by repeat constructor].
  apply Forall_fmap, Forall_true. by intros obj.
Qed.

Lemma stream_no_error q evs cbs :
  stream_of q evs = cbs → Forall (λ cb, is_error cb = false) cbs →
  Forall (λ ev, ∀ cb, ev = Deliver q cb → is_error cb = false) evs.
Proof.
  revert cbs. induction evs as [|ev evs IH]; intros cbs Hs Hall; [constructor|].
  destruct ev as [a|id a| |q' cb];
    try (constructor; [by intros cb' [=]|by apply (IH cbs)]).
  rewrite stream_of_deliver in Hs. case_decide as Heq.
  - subst q'. destruct cbs as [|cb' cbs]; [done|]. injection Hs as -> Hs.
    apply Forall_cons in Hall as [Hcb Hall].
    constructor; [by intros cb2 [= <-]|by apply (IH cbs)].
  - constructor; [by intros cb2 [= ? ?]|by apply (IH cbs)].
Qed.

Lemma isolated_cycle_provisos w evs rowsT rowsH rowsP :
  let n := length (queries w) in
  Forall (delivery_in n (n + 3)) evs →
  stream_of n evs = completes_with rowsT →
  stream_of (n + 1) evs = completes_with rowsH →
  stream_of (n + 2) evs = completes_with rowsP →
  let w' := run env evs (fetchData env all_issued w) in
  last_completion SetTemperatureData n evs (queries w')
  ∧ last_completion SetHumidityData (n + 1) evs (queries w')
  ∧ last_completion SetPressureData (n + 2) evs (queries w')
  ∧ Forall no_failure evs.
Proof.
  intros n Hevs HT HH HP w'.
  pose proof (delivery_in_is_delivery _ _ _ Hevs) as Hdel.
  assert (Hlast : ∀ f rows,
            stream_of (handle all_issued n f) evs = completes_with rows →
            last_completion f (handle all_issued n f) evs (queries w')).
  { intros f rows Hs.
    destruct (stream_split _ _ _ Hs) as (evs1 & evs2 & Hsplit & Hnil).
    exists evs1, evs2. split; [done|]. intros q' c' Hq' Hset. unfold completed.
    assert (Hevs2 : Forall (delivery_in n (n + 3)) evs2).
    { rewrite Hsplit in Hevs. apply Forall_app in Hevs as [_ Hevs].
      by apply Forall_cons in Hevs as [_ ?]. }
    destruct (decide (q' < n)) as [Hlt|Hge].
    { by rewrite (stream_out_of_range _ _ q' evs2 Hevs2) by lia. }
    assert (Hlen : q' < length (queries (fetchData env all_issued w))).
    { rewrite <-(run_length evs _ Hdel). by eapply lookup_lt_Some. }
    destruct (lookup_lt_is_Some_2 _ _ Hlen) as [c0 Hc0].
    destruct (run_lookup evs _ _ _ Hc0) as (c1 & Hc1 & Hset1 & _).
    fold w' in Hc1. rewrite Hq' in Hc1. injection Hc1 as <-.
    rewrite fetchData_queries in Hc0.
    pose proof (new_queries_setter all_issued _ q' c0 Hc0 ltac:(lia)) as Hq.
    fold n in Hq. rewrite <-Hset1, Hset in Hq. by rewrite Hq, Hnil. }
  split_and!.
  - by apply (Hlast SetTemperatureData rowsT).
  - by apply (Hlast SetHumidityData rowsH).
  - replace (n + 2) with (n + 1 + 1) in * by lia.
    by apply (Hlast SetPressureData rowsP).
  - pose proof (stream_no_error _ _ _ HT (completes_no_error rowsT)) as HeT.
    pose proof (stream_no_error _ _ _ HH (completes_no_error rowsH)) as HeH.
    pose proof (stream_no_error _ _ _ HP (completes_no_error rowsP)) as HeP.
    clear -Hevs HeT HeH HeP.
    induction Hevs as [|ev evs Hev Hevs IH]; [constructor|].
    apply Forall_cons in HeT as [HT1 HT]. apply Forall_cons in HeH as [HH1 HH].
    apply Forall_cons in HeP as [HP1 HP].
    constructor; [|by apply IH].
    destruct ev as [a|id a| |q cb]; try done. simpl in *.
    assert (q = n ∨ q = n + 1 ∨ q = n + 2) as [->|[->| ->]] by lia.
    + by apply HT1.
    + by apply HH1.
    + by apply HP1.
Qed.



(** C6 (amended). Each fetch applies its own effect when it settles,
    whatever the other two have done so far: at any point of a cycle, the
    [complete] callback of a query replaces the series of its setter at once
    and leaves the other series alone, and its [error] callback sets the
    error flag at once. *)
Theorem settle_applies_at_once w a evs f :
  let n := length (queries w) in
  attempt a f = Issued →
  let mid := run env evs (fetchData env a w) in
  let done := step env (Deliver (handle a n f) OnComplete) mid in
  let failed := step env (Deliver (handle a n f) OnError) mid in
  series f (state done) = results_of (handle a n f)
  ∧ (∀ g, g ≠ f → series g (state done) = series g (state mid))
  ∧ error (state failed) = true.
Proof.
  intros n Hf mid done failed.
  pose proof (new_queries_handle a f (queries w) Hf) as Hq.
  rewrite <-fetchData_queries in Hq.
  destruct (run_lookup evs _ _ _ Hq) as (c & Hc & Hset & _).
  fold n mid in Hc. simpl in Hset. split_and!.
  - subst done. simpl. rewrite deliver_series, Hc, Hset. simpl.
    by rewrite bool_decide_true.
  - intros g Hg. subst done. simpl. rewrite deliver_series, Hc, Hset. simpl.
    by rewrite bool_decide_false.
  - subst failed. simpl. rewrite deliver_error. simpl.
    rewrite bool_decide_true; [by rewrite orb_true_r|by eapply lookup_lt_Some].
Qed.

(** ** Configuration *)

Lemma js_or_resolves name : resolves env name (js_or (env !! name) "").
Proof.
  split.
  - intros v ->. simpl. by case_decide.
  - by intros ->.
Qed.

(** C7 (amended). Each of the four connection parameters is the value of its
    environment variable when the variable is defined and the empty string
    when it is not.  Nothing checks them: a fetch whose client does not
    throw sends its query with the parameters as they are, empty or not,
    and changes no flag. *)
Theorem config_resolution :
  let cfg := influxDB (config env) in
  resolves env "REACT_APP_INFLUXDB_URL" (url cfg)
  ∧ resolves env "REACT_APP_INFLUXDB_ORG" (org cfg)
  ∧ resolves env "REACT_APP_INFLUXDB_BUCKET" (bucket cfg)
  ∧ resolves env "REACT_APP_INFLUXDB_TOKEN" (token cfg)
  ∧ ∀ field f w,
      let w1 := (fetchInfluxData env field f Issued w).1 in
      queries w1 = queries w ++
        [ {| api_url := url cfg; api_token := token cfg; api_org := org cfg;
             flux_bucket := bucket cfg; field := field; setData := f;
             results := [] |} ]
      ∧ state w1 = state w.
Proof.
  intros cfg. split_and!; try apply js_or_resolves.
  intros field f w. by split.
Qed.

(** ** The interval and its cleanup *)

Lemma mount_timer_owned a w :
  timer_owned w → cleanup w = None → timer_owned (step env (Mount a) w).
Proof.
  unfold timer_owned. intros Hown Hnone. simpl.
  destruct (fetchData_timers a w) as [-> _].
  rewrite Hown, Hnone. apply (right_id_L ∅ (∪)).
Qed.

Lemma step_timer_owned ev w :
  not_mount ev → timer_owned w → timer_owned (step env ev w).
Proof.
  unfold timer_owned. intros Hev Hown. destruct ev as [a|id a| |q cb]; cbn [step].
  - done.
  - case_decide; [|done]. destruct (fetchData_timers a w) as [Ht Hc].
    by rewrite Ht, Hc.
  - unfold useEffect_cleanup. destruct (cleanup w) as [interval|] eqn:Hc; simpl.
    + rewrite Hown. apply difference_diag_L.
    + by rewrite Hc.
  - unfold deliver. destruct (queries w !! q); [|done]. by destruct cb.
Qed.

Lemma run_timer_owned evs w :
  Forall not_mount evs → timer_owned w → timer_owned (run env evs w).
Proof.
  revert w. induction evs as [|ev evs IH]; intros w Hevs Hown; [done|].
  apply Forall_cons in Hevs as [Hev Hevs]. simpl.
  by apply IH, step_timer_owned.
Qed.

Lemma unmount_clears w :
  timer_owned w →
  timers (step env Unmount w) = ∅ ∧ cleanup (step env Unmount w) = None
  ∧ fetchData_calls (step env Unmount w) = fetchData_calls w.
Proof.
  unfold timer_owned. intros Hown. simpl. unfold useEffect_cleanup.
  destruct (cleanup w) as [interval|] eqn:Hc; simpl; [|done].
  rewrite Hown. split; [apply difference_diag_L|done].
Qed.

(** With no timer held, nothing starts a cycle. *)
Lemma run_idle evs w :
  Forall not_mount evs → timers w = ∅ → cleanup w = None →
  fetchData_calls (run env evs w) = fetchData_calls w
  ∧ length (queries (run env evs w)) = length (queries w)
  ∧ timers (run env evs w) = ∅.
Proof.
  revert w. induction evs as [|ev evs IH]; intros w Hevs Ht Hc; [done|].
  apply Forall_cons in Hevs as [Hev Hevs]. simpl.
  assert (Hstep : fetchData_calls (step env ev w) = fetchData_calls w
                  ∧ length (queries (step env ev w)) = length (queries w)
                  ∧ timers (step env ev w) = ∅ ∧ cleanup (step env ev w) = None).
  { destruct ev as [a|id a| |q cb]; simpl.
    - done.
    - rewrite Ht. by rewrite decide_False by set_solver.
    - unfold useEffect_cleanup. by rewrite Hc.
    - pose proof (step_length (Deliver q cb) w I) as Hlen. simpl in Hlen.
      unfold deliver in *. destruct (queries w !! q); [|done]. by destruct cb. }
  destruct Hstep as (Hcalls & Hlen & Ht' & Hc').
  destruct (IH _ Hevs Ht' Hc') as (-> & -> & ->). done.
Qed.

(** C8. Once the view is torn down, no further cycle runs: whatever timer
    ticks and query callbacks arrive after the cleanup, [fetchData] is not
    called again and no query is sent. *)
Theorem no_cycle_after_teardown a evs1 evs2 :
  Forall not_mount evs1 → Forall not_mount evs2 →
  let torn_down := run env (Mount a :: evs1 ++ [Unmount]) initial in
  let later := run env evs2 torn_down in
  fetchData_calls later = fetchData_calls torn_down
  ∧ length (queries later) = length (queries torn_down)
  ∧ timers later = ∅.
Proof.
  intros Hevs1 Hevs2 torn_down later.
  assert (Hown : timer_owned (run env (Mount a :: evs1) initial)).
  { simpl. apply run_timer_owned; [done|].
    by apply (mount_timer_owned a initial). }
  assert (Htorn : torn_down = step env Unmount (run env (Mount a :: evs1) initial)).
  { subst torn_down. by rewrite app_comm_cons, run_app. }
  destruct (unmount_clears _ Hown) as (Ht & Hc & _).
  rewrite <-Htorn in Ht, Hc.
  destruct (run_idle evs2 torn_down Hevs2 Ht Hc) as (? & ? & ?). done.
Qed.

End Runs.

(** ** The "Updated at" line *)

Lemma updated_at_last (data : list ChartData) :
  updated_at data
  = Normal (from_option (λ d, toLocaleString (time d)) "N/A" (last data)).
Proof.
  unfold updated_at. rewrite last_lookup.
  replace (pred (length data)) with (length data - 1) by lia.
  case_decide as Hlen.
  - destruct (lookup_lt_is_Some_2 data (length data - 1)) as [d ->]; [lia|done].
  - by rewrite (proj2 (lookup_ge_None data (length data - 1))) by lia.
Qed.

Lemma renderChart_total title (data : list ChartData) color fillColor unit :
  ∃ chart, renderChart title data color fillColor unit = Normal chart.
Proof.
  unfold renderChart. destruct (getLatestValue_total data) as [s ->].
  by eexists.
Qed.

(** C9. When the view is ready (not loading, no error) it shows the
    dashboard, and its "Updated at" line is the formatted time of the last
    point of the temperature series, or ["N/A"] when that series is empty. *)
Theorem updated_at_indicator w :
  loading (state w) = false → error (state w) = false →
  let data := deref w (temperatureData (state w)) in
  ∃ stamp charts,
    App w = Normal (Dashboard stamp charts)
    ∧ (∀ pre d, data = pre ++ [d] → stamp = toLocaleString (time d))
    ∧ (data = [] → stamp = "N/A").
Proof.
  intros Hl He data. unfold App. rewrite Hl, He. fold data.
  rewrite updated_at_last.
  destruct (renderChart_total "Temperature" data
              "#8884d8" "rgba(136, 132, 216, 0.3)" "℃") as [t ->].
  destruct (renderChart_total "Humidity" (deref w (humidityData (state w)))
              "#ff7300" "rgba(255, 115, 0, 0.3)" "%") as [h ->].
  destruct (renderChart_total "Pressure" (deref w (pressureData (state w)))
              "#82ca9d" "rgba(130, 202, 157, 0.3)" "hPa") as [p ->].
  eexists _, _. split; [done|]. split.
  - intros pre d ->. by rewrite last_snoc.
  - by intros ->.
Qed.

End Properties.

(** * The earlier revision *)

Section Revision1.
Context `{Host}.

(** The earlier [next] also pushes one point per row, with the row's time;
    it differs in that a [null] value is copied instead of being left out. *)
Lemma next_r1_one_point (acc : list ChartData) obj :
  ∃ d, next_r1 acc obj = acc ++ [d] ∧ time d = Date_getTime (_time obj)
       ∧ value d = _value obj.
Proof. by eexists. Qed.

Lemma next_r1_present (acc : list ChartData) obj :
  not_nullish (_value obj) = true → next_r1 acc obj = next acc obj.
Proof. unfold next, next_r1. by intros ->. Qed.

Lemma next_r1_gap (acc : list ChartData) obj :
  not_nullish (_value obj) = false →
  ∃ d, next_r1 acc obj = acc ++ [d] ∧ valueless d.
Proof. intros Hgap. by eexists. Qed.

(** The earlier [getLatestValue] agrees with the later one when the last
    point has a value, and on the empty series. *)
Lemma getLatestValue_r1_last (pre : list ChartData) d v :
  value d = present v →
  getLatestValue_r1 (pre ++ [d]) = getLatestValue (pre ++ [d]).
Proof.
  intros Hv. rewrite (getLatestValue_skip_back pre [] d v Hv) by done.
  unfold getLatestValue_r1. rewrite length_app. simpl.
  case_decide; [lia|].
  replace (length pre + 1 - 1) with (length pre) by lia.
  rewrite lookup_app_r by lia. rewrite Nat.sub_diag. simpl. by rewrite Hv.
Qed.

End Revision1.

(** It does not look further back than the last point. *)
Example getLatestValue_r1_no_skip_back :
  getLatestValue_r1 example_series_gap = Normal "N/A"
  ∧ getLatestValue example_series_gap = Normal "20.1".
Proof. split; reflexivity. Qed.

(** * The properties on concrete runs *)

Example latest_value_of_example_series :
  getLatestValue example_series = Normal "20.4".
Proof. reflexivity. Qed.

Lemma getLatestValue_latest_displayable_witness :
  getLatestValue example_series = Normal "20.4"
  ∧ getLatestValue example_series_gap = Normal "20.1"
  ∧ getLatestValue ([] : list (@ChartData tenths_host)) = Normal "N/A".
Proof.
  split_and!.
  - apply (proj1 (@getLatestValue_latest_displayable tenths_host example_series)
             [sample 0 (present 201%Z); sample 300000 null]
             (sample 600000 (present 204%Z)) 204%Z); reflexivity.
  - apply (proj1 (proj2 (@getLatestValue_latest_displayable tenths_host example_series_gap))
             [] (sample 0 (present 201%Z)) 201%Z
             [sample 300000 null; sample 600000 undefined]);
      [reflexivity|reflexivity|].
    repeat constructor.
  - apply (proj2 (proj2 (@getLatestValue_latest_displayable tenths_host []))).
    constructor.
Defined.

Lemma fetch_one_point_per_row_witness :
  let w' := run example_env (temperature_arrives ++ [Deliver 0 OnComplete]) mounted in
  let output := deref w' (temperatureData (state w')) in
  length output = 3
  ∧ ∀ i obj, example_rows !! i = Some obj →
      ∃ d, output !! i = Some d ∧ time d = _time obj
           ∧ ∀ v, _value obj = present v → value d = present v.
Proof.
  apply (@fetch_one_point_per_row tenths_host example_env mounted 0
           (query_of example_env "temperature" SetTemperatureData)
           temperature_arrives); reflexivity.
Defined.

Lemma fetch_gap_keeps_time_axis_witness :
  let w' := run example_env (temperature_arrives ++ [Deliver 0 OnComplete]) mounted in
  let output := deref w' (temperatureData (state w')) in
  output !! 1 = Some (sample 300000 undefined)
  ∧ (∀ d x, output !! 1 = Some d → value d ≠ present x)
  ∧ length output = 3.
Proof.
  apply (@fetch_gap_keeps_time_axis tenths_host example_env mounted 0
           (query_of example_env "temperature" SetTemperatureData)
           temperature_arrives 1 (sample_row 300000 null)); reflexivity.
Defined.

Lemma successful_cycle_witness :
  let w' := run example_env overlapping_cycle
              (fetchData example_env all_issued in_flight) in
  loading (state w') = false
  ∧ deref w' (temperatureData (state w')) = point <$> example_rows
  ∧ deref w' (humidityData (state w')) = point <$> [sample_row 0 (present 550%Z)]
  ∧ deref w' (pressureData (state w')) = []
  ∧ error (state w') = false.
Proof.
  destruct (@successful_cycle tenths_host example_env in_flight overlapping_cycle
              example_rows [sample_row 0 (present 550%Z)] []
              eq_refl eq_refl eq_refl)
    as (Hloading & HT & HH & HP & _ & Herror).
  split_and!.
  - exact Hloading.
  - apply HT.
    exists [ Deliver 0 (OnNext (sample_row 0 (present 100%Z)));
             Deliver 3 (OnNext (sample_row 0 (present 201%Z)));
             Deliver 0 OnComplete;
             Deliver 4 (OnNext (sample_row 0 (present 550%Z)));
             Deliver 4 OnComplete;
             Deliver 3 (OnNext (sample_row 300000 null));
             Deliver 3 (OnNext (sample_row 600000 (present 204%Z)));
             Deliver 5 OnComplete ], [].
    split; [reflexivity|]. intros q' c' _ _. reflexivity.
  - apply HH.
    exists [ Deliver 0 (OnNext (sample_row 0 (present 100%Z)));
             Deliver 3 (OnNext (sample_row 0 (present 201%Z)));
             Deliver 0 OnComplete;
             Deliver 4 (OnNext (sample_row 0 (present 550%Z))) ],
           [ Deliver 3 (OnNext (sample_row 300000 null));
             Deliver 3 (OnNext (sample_row 600000 (present 204%Z)));
             Deliver 5 OnComplete; Deliver 3 OnComplete ].
    split; [reflexivity|]. intros q' c' Hq' Hset.
    do 6 (destruct q' as [|q']; [injection Hq' as <-; first [discriminate Hset|reflexivity]|]).
    discriminate Hq'.
  - apply HP.
    exists [ Deliver 0 (OnNext (sample_row 0 (present 100%Z)));
             Deliver 3 (OnNext (sample_row 0 (present 201%Z)));
             Deliver 0 OnComplete;
             Deliver 4 (OnNext (sample_row 0 (present 550%Z)));
             Deliver 4 OnComplete;
             Deliver 3 (OnNext (sample_row 300000 null));
             Deliver 3 (OnNext (sample_row 600000 (present 204%Z))) ],
           [ Deliver 3 OnComplete ].
    split; [reflexivity|]. intros q' c' Hq' Hset.
    do 6 (destruct q' as [|q']; [injection Hq' as <-; first [discriminate Hset|reflexivity]|]).
    discriminate Hq'.
  - apply Herror. repeat constructor.
Defined.

(** The proviso on the series is needed: when the temperature query of the
    earlier cycle completes after the one of the later cycle, the series
    holds the points of the earlier cycle. *)
Example stale_completion_takes_over :
  let w' := run example_env
              [ Deliver 0 (OnNext (sample_row 0 (present 100%Z)));
                Deliver 3 (OnNext (sample_row 0 (present 201%Z)));
                Deliver 3 OnComplete; Deliver 4 OnComplete; Deliver 5 OnComplete;
                Deliver 0 OnComplete ]
              (fetchData example_env all_issued in_flight) in
  deref w' (temperatureData (state w')) = [ sample 0 (present 100%Z) ].
Proof. reflexivity. Qed.

(** C4 as stated fails: after a cycle in which a fetch failed, a cycle
    whose three fetches all succeed still ends with the error flag set. *)
Lemma error_flag_survives_successful_cycle :
  ¬ (∀ (w : @World tenths_host) evs rowsT rowsH rowsP,
       let n := length (queries w) in
       Forall (delivery_in n (n + 3)) evs →
       stream_of n evs = completes_with rowsT →
       stream_of (n + 1) evs = completes_with rowsH →
       stream_of (n + 2) evs = completes_with rowsP →
       let w' := run example_env evs (fetchData example_env all_issued w) in
       loading (state w') = false
       ∧ error (state w') = false
       ∧ deref w' (temperatureData (state w')) = point <$> rowsT
       ∧ deref w' (humidityData (state w')) = point <$> rowsH
       ∧ deref w' (pressureData (state w')) = point <$> rowsP).
Proof.
  intros Hclaim.
  destruct (Hclaim after_failed_cycle (all_complete 3)
              example_rows [sample_row 0 (present 550%Z)] [])
    as (_ & Herror & _); try reflexivity.
  - repeat constructor.
  - vm_compute in Herror. discriminate.
Qed.


(** C6 as stated fails: when the temperature query completes while the two
    other queries are still running, the temperature series is replaced
    there and then, and the loading flag is already false. *)
Lemma effects_applied_mid_cycle :
  ¬ (∀ (w : @World tenths_host) (evs : list Event),
       let n := length (queries w) in
       Forall (delivery_in n (n + 3)) evs →
       settled n evs && settled (n + 1) evs && settled (n + 2) evs = false →
       let w' := run example_env evs (fetchData example_env all_issued w) in
       loading (state w') = true
       ∧ error (state w') = error (state w)
       ∧ ∀ f, series f (state w') = series f (state w)).
Proof.
  intros Hclaim.
  destruct (Hclaim initial
              [Deliver 0 (OnNext (sample_row 0 (present 201%Z))); Deliver 0 OnComplete])
    as (_ & _ & Hseries); [repeat constructor|reflexivity|].
  specialize (Hseries SetTemperatureData). vm_compute in Hseries. discriminate.
Qed.

Lemma settle_applies_at_once_witness :
  let mid := run example_env temperature_arrives
               (fetchData example_env all_issued initial) in
  series SetTemperatureData (state (step example_env (Deliver 0 OnComplete) mid))
  = results_of 0
  ∧ (∀ g, g ≠ SetTemperatureData →
       series g (state (step example_env (Deliver 0 OnComplete) mid))
       = series g (state mid))
  ∧ error (state (step example_env (Deliver 0 OnError) mid)) = true.
Proof.
  apply (@settle_applies_at_once tenths_host example_env initial all_issued
           temperature_arrives SetTemperatureData).
  reflexivity.
Defined.

(** C7 as stated fails: with the token, the organization and the bucket
    missing, a cycle still sends its three queries and raises no error. *)
Lemma missing_parameter_not_rejected :
  ¬ (∀ (env : gmap string string) (w : @World tenths_host) a,
       incomplete (influxDB (config env)) →
       let w1 := fetchData env a w in
       queries w1 = queries w ∧ error (state w1) = true).
Proof.
  intros Hclaim.
  destruct (Hclaim example_env initial all_issued) as [Hqueries _].
  - right. left. reflexivity.
  - vm_compute in Hqueries. discriminate.
Qed.

Lemma config_resolution_witness :
  url (influxDB (config example_env)) = "https://influx.example"
  ∧ token (influxDB (config example_env)) = ""
  ∧ api_token <$> queries mounted = [""; ""; ""].
Proof.
  pose proof (@config_resolution tenths_host example_env) as (Hurl & _ & _ & Htoken & _).
  split_and!.
  - apply (proj1 Hurl). reflexivity.
  - apply (proj2 Htoken). reflexivity.
  - reflexivity.
Defined.

Lemma no_cycle_after_teardown_witness :
  let torn_down :=
    run example_env
      (Mount all_issued :: (IntervalElapsed 0 all_issued :: humidity_fails) ++ [Unmount])
      initial in
  let later :=
    run example_env
      [IntervalElapsed 0 all_issued; Deliver 3 OnComplete; IntervalElapsed 1 all_issued]
      torn_down in
  fetchData_calls torn_down = 2
  ∧ fetchData_calls later = fetchData_calls torn_down
  ∧ length (queries later) = length (queries torn_down)
  ∧ timers later = ∅.
Proof.
  split; [reflexivity|].
  apply (@no_cycle_after_teardown tenths_host example_env all_issued
           (IntervalElapsed 0 all_issued :: humidity_fails)
           [IntervalElapsed 0 all_issued; Deliver 3 OnComplete;
            IntervalElapsed 1 all_issued]);
    repeat constructor.
Defined.

Lemma updated_at_indicator_witness :
  let w := run example_env (all_complete 0) (fetchData example_env all_issued initial) in
  ∃ stamp charts,
    App w = Normal (Dashboard stamp charts)
    ∧ (∀ pre d, deref w (temperatureData (state w)) = pre ++ [d] →
         stamp = toLocaleString (time d))
    ∧ (deref w (temperatureData (state w)) = [] → stamp = "N/A").
Proof.
  apply (@updated_at_indicator tenths_host
           (run example_env (all_complete 0) (fetchData example_env all_issued initial)));
    reflexivity.
Defined.

Example updated_at_of_example_cycle :
  ∃ charts,
    App (run example_env (all_complete 0) (fetchData example_env all_issued initial))
    = Normal (Dashboard "600000" charts).
Proof. eexists. reflexivity. Qed.


(** * Further properties of the component *)

Section Further.
Context `{Host}.

(** ** More on the latest value *)

(** A series has no value at all, or a last point with a value. *)
Lemma last_value_cases (data : list ChartData) :
  Forall valueless data
  ∨ ∃ pre d v gaps, data = pre ++ d :: gaps ∧ value d = present v
                    ∧ Forall valueless gaps.
Proof.
  induction data as [|d data IH]; [by left|].
  destruct IH as [Hall|(pre & d' & v & gaps & -> & Hv & Hgaps)].
  - destruct (value d) as [v| |] eqn:Hd.
    + right. by exists [], d, v, data.
    + left. constructor; [unfold valueless; by rewrite Hd|done].
    + left. constructor; [unfold valueless; by rewrite Hd|done].
  - right. by exists (d :: pre), d', v, gaps.
Qed.

(** X1. Points without a value at the end of a series do not change the
    latest value: the card shows the same text with or without them. *)
Theorem getLatestValue_trailing_gaps (data gaps : list ChartData) :
  Forall valueless gaps → getLatestValue (data ++ gaps) = getLatestValue data.
Proof.
  intros Hgaps.
  destruct (last_value_cases data) as [Hall|(pre & d & v & g & -> & Hv & Hg)].
  - rewrite !getLatestValue_no_value; [done|done|by apply Forall_app].
  - rewrite <-app_assoc. simpl.
    rewrite !(getLatestValue_skip_back _ _ d v); [done|done|done|done|].
    by apply Forall_app.
Qed.

Lemma getLatestValue_r1_gap (pre : list ChartData) g :
  valueless g → getLatestValue_r1 (pre ++ [g]) = Normal "N/A".
Proof.
  intros Hg. unfold getLatestValue_r1. rewrite length_app. simpl.
  case_decide; [done|].
  replace (length pre + 1 - 1) with (length pre) by lia.
  rewrite lookup_app_r by lia. rewrite Nat.sub_diag. simpl.
  unfold valueless in Hg. by destruct (value g).
Qed.

(** X2. The two revisions of [getLatestValue] give the same text except on
    a series that has a value and ends in points without one: there the
    earlier revision says ["N/A"] and the later one gives the last value. *)
Theorem getLatestValue_revisions (data : list ChartData) :
  getLatestValue_r1 data = getLatestValue data
  ∨ ∃ pre d v gaps,
      data = pre ++ d :: gaps ∧ value d = present v ∧ gaps ≠ []
      ∧ Forall valueless gaps
      ∧ getLatestValue_r1 data = Normal "N/A"
      ∧ getLatestValue data = Normal (toFixed v 1).
Proof.
  destruct (last_value_cases data) as [Hall|(pre & d & v & gaps & -> & Hv & Hgaps)].
  - left. rewrite getLatestValue_no_value by done.
    destruct data as [|d data _] using rev_ind; [done|].
    apply getLatestValue_r1_gap.
    apply Forall_app in Hall as [_ Hd]. by inversion Hd.
  - destruct gaps as [|g gaps _] using rev_ind.
    + left. by apply (getLatestValue_r1_last pre d v).
    + right. exists pre, d, v, (gaps ++ [g]). split_and!; try done.
      * by destruct gaps.
      * replace (pre ++ d :: gaps ++ [g]) with ((pre ++ d :: gaps) ++ [g])
          by by rewrite <-app_assoc.
        apply getLatestValue_r1_gap.
        apply Forall_app in Hgaps as [_ Hg]. by inversion Hg.
      * by apply getLatestValue_skip_back.
Qed.

Lemma scan_same_value (l1 l2 : list ChartData) n :
  Forall2 same_value l1 l2 → scan l1 n = scan l2 n.
Proof.
  intros Hsame. induction n as [|n IH]; [done|]. simpl.
  destruct (l1 !! n) as [d1|] eqn:H1.
  - destruct (Forall2_lookup_l _ _ _ _ _ Hsame H1) as (d2 & -> & Hd).
    destruct (value d1) as [v1| |] eqn:Hv1.
    + by rewrite (proj1 (Hd v1) Hv1).
    + destruct (value d2) as [v2| |] eqn:Hv2; try done.
      apply Hd in Hv2. congruence.
    + destruct (value d2) as [v2| |] eqn:Hv2; try done.
      apply Hd in Hv2. congruence.
  - rewrite (proj2 (lookup_ge_None l2 n)); [done|].
    rewrite <-(Forall2_length _ _ _ Hsame). by apply lookup_ge_None.
Qed.

Lemma foldl_next (acc : list ChartData) rows :
  foldl next acc rows = acc ++ (point <$> rows).
Proof.
  revert acc. induction rows as [|obj rows IH]; intros acc; simpl.
  - by rewrite app_nil_r.
  - by rewrite IH, next_point, <-app_assoc.
Qed.

Lemma foldl_next_r1 (acc : list ChartData) rows :
  foldl next_r1 acc rows
  = acc ++ ((λ obj, {| time := Date_getTime (_time obj); value := _value obj |}) <$> rows).
Proof.
  revert acc. induction rows as [|obj rows IH]; intros acc; simpl.
  - by rewrite app_nil_r.
  - rewrite IH. unfold next_r1. by rewrite <-app_assoc.
Qed.

(** X3. The two revisions of [next] build series that show the same: point
    by point the same time and the same number or lack of one, hence the
    same latest value, whether a missing value was copied as [null] or left
    out. *)
Theorem next_revisions_show_the_same (rows : list Row) :
  Forall2 (λ d1 d2, time d1 = time d2 ∧ same_value d1 d2)
    (foldl next_r1 [] rows) (foldl next [] rows)
  ∧ getLatestValue (foldl next_r1 [] rows) = getLatestValue (foldl next [] rows).
Proof.
  rewrite foldl_next, foldl_next_r1. simpl.
  assert (Hpt : ∀ obj : Row,
            same_value {| time := Date_getTime (_time obj); value := _value obj |}
                       (point obj)).
  { intros obj v. unfold point. simpl. by destruct (_value obj). }
  split.
  - apply Forall2_fmap, Forall_Forall2_diag, Forall_forall. intros obj _.
    split; [done|apply Hpt].
  - unfold getLatestValue. rewrite !length_fmap.
    case_decide; [done|]. apply scan_same_value.
    apply Forall2_fmap, Forall_Forall2_diag, Forall_forall. intros obj _. apply Hpt.
Qed.

(** ** The card of a chart *)

(** X4. The card of a chart says "No data available" when the series has no
    point with a value, and otherwise shows the last value with the unit:
    the text the tooltip's formatter gives for that value.  The chart gets
    the series as it is. *)
Theorem renderChart_card title (data : list ChartData) color fillColor unit :
  ∃ chart,
    renderChart title data color fillColor unit = Normal chart
    ∧ chart_data chart = data
    ∧ (Forall valueless data → chart_summary chart = "No data available")
    ∧ (∀ pre d v gaps,
         data = pre ++ d :: gaps → value d = present v → Forall valueless gaps →
         toFixed v 1 ≠ "N/A" → chart_summary chart = formatter unit v).
Proof.
  unfold renderChart. destruct (getLatestValue_total data) as [s Hs].
  rewrite Hs. eexists. split; [done|]. simpl. split_and!; [done| |].
  - intros Hall. rewrite getLatestValue_no_value in Hs by done.
    simplify_eq. by rewrite decide_False by (by intros ?).
  - intros pre d v gaps -> Hv Hgaps Hfmt.
    rewrite (getLatestValue_skip_back _ _ d v) in Hs by done.
    simplify_eq. by rewrite decide_True.
Qed.

Section FurtherRuns.
Variable env : gmap string string.

(** X5. What the card shows after a fetch: when the stream of a fresh query
    completes, the latest value of the series it hands over is the value of
    the last row that had one, and ["N/A"] when no row had a value. *)
Theorem latest_value_of_fetched_rows w q c evs :
  queries w !! q = Some c → results c = [] →
  let w' := run env (evs ++ [Deliver q OnComplete]) w in
  let shown := getLatestValue (deref w' (series (setData c) (state w'))) in
  (Forall (λ obj, not_nullish (_value obj) = false) (rows_for q evs) →
     shown = Normal "N/A")
  ∧ (∀ pre obj v gaps,
       rows_for q evs = pre ++ obj :: gaps → _value obj = present v →
       Forall (λ g, not_nullish (_value g) = false) gaps →
       shown = Normal (toFixed v 1)).
Proof.
  intros Hq Hfresh w' shown. subst w' shown.
  rewrite (fetch_output env w q c evs Hq Hfresh). split.
  - intros Hnone. apply getLatestValue_no_value, Forall_fmap.
    eapply Forall_impl; [done|]. intros obj Hobj.
    unfold valueless, point. simpl. by rewrite Hobj.
  - intros pre obj v gaps -> Hv Hgaps. rewrite fmap_app, fmap_cons.
    apply (getLatestValue_skip_back _ _ _ v).
    + unfold point. simpl. by rewrite Hv.
    + apply Forall_fmap. eapply Forall_impl; [done|]. intros g Hg.
      unfold valueless, point. simpl. by rewrite Hg.
Qed.

(** ** The flags *)

Lemma App_error w :
  loading (state w) = false → error (state w) = true → App w = Normal ErrorMessage.
Proof. intros Hl He. unfold App. by rewrite Hl, He. Qed.

Lemma App_ready w :
  loading (state w) = false → error (state w) = false →
  ∃ stamp charts, App w = Normal (Dashboard stamp charts).
Proof.
  intros Hl He. unfold App. rewrite Hl, He, updated_at_last.
  destruct (renderChart_total "Temperature" (deref w (temperatureData (state w)))
              "#8884d8" "rgba(136, 132, 216, 0.3)" "℃") as [t ->].
  destruct (renderChart_total "Humidity" (deref w (humidityData (state w)))
              "#ff7300" "rgba(255, 115, 0, 0.3)" "%") as [h ->].
  destruct (renderChart_total "Pressure" (deref w (pressureData (state w)))
              "#82ca9d" "rgba(130, 202, 157, 0.3)" "hPa") as [p ->].
  by eexists _, _.
Qed.

(** X6. A failure is permanent: once the error flag is set, no later event
    (tick, callback, unmount or mount) clears it, and the view never shows
    the dashboard again. *)
Theorem failure_is_permanent w evs :
  error (state w) = true →
  error (state (run env evs w)) = true
  ∧ ∀ stamp charts, App (run env evs w) ≠ Normal (Dashboard stamp charts).
Proof.
  intros He. pose proof (run_error_sticky env evs w He) as He'.
  split; [done|]. intros stamp charts. unfold App. rewrite He'.
  by destruct (loading (state (run env evs w))).
Qed.

Lemma mounted_not_loading w a evs :
  loading (state (run env (Mount a :: evs) w)) = false.
Proof.
  simpl. apply run_loading_false. unfold useEffect. cbn [state].
  apply fetchData_loading.
Qed.

(** X7. The loading message is only ever shown before the first cycle: from
    the moment the component has mounted the loading flag is false after
    every event, also while queries are still running. *)
Theorem loading_cleared_for_good w a evs :
  let w' := run env (Mount a :: evs) w in
  loading (state w') = false ∧ App w' ≠ Normal LoadingMessage.
Proof.
  intros w'. pose proof (mounted_not_loading w a evs) as Hl. fold w' in Hl.
  split; [done|]. destruct (error (state w')) eqn:He.
  - by rewrite App_error.
  - destruct (App_ready w' Hl He) as (stamp & charts & ->). done.
Qed.

(** ** The interval while the component is mounted *)

Lemma run_ticks evs w id :
  Forall no_lifecycle evs → timers w = {[id]} →
  timers (run env evs w) = {[id]}
  ∧ fetchData_calls (run env evs w) = fetchData_calls w + ticks id evs.
Proof.
  revert w. induction evs as [|ev evs IH]; intros w Hevs Ht.
  - simpl. split; [done|lia].
  - apply Forall_cons in Hevs as [Hev Hevs].
    destruct ev as [a|id' a| |q cb]; try done; cbn [run step ticks].
    + destruct (decide (id' = id)) as [->|Hne].
      * rewrite decide_True by (rewrite Ht; set_solver).
        destruct (IH (fetchData env a w) Hevs) as [-> ->].
        { by destruct (fetchData_timers env a w) as [-> _]. }
        rewrite fetchData_counts. split; [done|lia].
      * rewrite decide_False by (rewrite Ht; set_solver).
        destruct (IH w Hevs Ht) as [-> ->]. split; [done|lia].
    + destruct (IH (deliver q cb w) Hevs) as [-> ->].
      { unfold deliver. destruct (queries w !! q); [|done]. by destruct cb. }
      split; [done|].
      unfold deliver. destruct (queries w !! q); [|done]. by destruct cb.
Qed.

(** X8. While the component stays mounted, every time its interval elapses
    one more cycle runs, whether or not the queries of earlier cycles have
    settled; the browser holds that one timer throughout. *)
Theorem each_tick_runs_a_cycle a evs :
  Forall no_lifecycle evs →
  let w' := run env (Mount a :: evs) initial in
  timers w' = {[0]} ∧ fetchData_calls w' = 1 + ticks 0 evs.
Proof.
  intros Hevs w'.
  destruct (run_ticks evs (step env (Mount a) initial) 0 Hevs) as [Ht Hc].
  { cbn [step]. unfold useEffect. cbn [timers next_timer].
    destruct (fetchData_timers env a initial) as [-> _].
    assert (next_timer (fetchData env a initial) = 0) as -> by by destruct a as [[] [] []].
    apply (right_id_L ∅ (∪)). }
  split; [done|]. subst w'. cbn [run]. rewrite Hc.
  cbn [step]. unfold useEffect. cbn [fetchData_calls].
  by rewrite fetchData_counts.
Qed.

(** ** Series and arrays over a run *)

Lemma initial_refs_valid : refs_valid initial.
Proof. by intros []. Qed.

Lemma step_refs_valid ev w : refs_valid w → refs_valid (step env ev w).
Proof.
  intros Hw f q Hf. pose proof (step_length_mono env ev w) as Hlen.
  destruct ev as [a|id a| |q' cb]; cbn [step] in *.
  - unfold useEffect in Hf. cbn [state] in Hf. rewrite fetchData_series in Hf.
    specialize (Hw f q Hf). lia.
  - case_decide; [|by apply (Hw f q)]. rewrite fetchData_series in Hf.
    specialize (Hw f q Hf). lia.
  - assert (series f (state w) = results_of q) as Hf'
      by (unfold useEffect_cleanup in Hf; by destruct (cleanup w)).
    specialize (Hw f q Hf'). lia.
  - rewrite deliver_series in Hf.
    destruct (queries w !! q') as [c|] eqn:Hq'; [|specialize (Hw f q Hf); lia].
    destruct (is_complete cb && bool_decide (f = setData c));
      [|specialize (Hw f q Hf); lia].
    simplify_eq. apply lookup_lt_Some in Hq'. lia.
Qed.

Lemma run_refs_valid evs w : refs_valid w → refs_valid (run env evs w).
Proof.
  revert w. induction evs as [|ev evs IH]; intros w Hw; [done|].
  simpl. by apply IH, step_refs_valid.
Qed.

Lemma App_ext w1 w2 :
  loading (state w1) = loading (state w2) → error (state w1) = error (state w2) →
  (∀ f, deref w1 (series f (state w1)) = deref w2 (series f (state w2))) →
  App w1 = App w2.
Proof.
  intros Hl He Hs. unfold App. rewrite Hl, He.
  pose proof (Hs SetTemperatureData) as HT.
  pose proof (Hs SetHumidityData) as HH.
  pose proof (Hs SetPressureData) as HP.
  cbn [series] in HT, HH, HP. by rewrite HT, HH, HP.
Qed.

(** X9. Starting a cycle changes nothing on screen: when the three queries
    of a new cycle are sent, the view is what it was before, with the
    charts still holding the points of the earlier cycles, until a callback
    of a query arrives. *)
Theorem new_cycle_keeps_view a evs :
  let w := run env (Mount a :: evs) initial in
  App (fetchData env all_issued w) = App w
  ∧ ∀ f, deref (fetchData env all_issued w)
           (series f (state (fetchData env all_issued w)))
         = deref w (series f (state w)).
Proof.
  intros w.
  assert (Hvalid : refs_valid w) by apply run_refs_valid, initial_refs_valid.
  pose proof (mounted_not_loading initial a evs) as Hl. fold w in Hl.
  assert (Hs : ∀ f, deref (fetchData env all_issued w)
                      (series f (state (fetchData env all_issued w)))
                    = deref w (series f (state w))).
  { intros f. rewrite fetchData_series.
    destruct (series f (state w)) as [|q] eqn:Hf; [done|].
    specialize (Hvalid f q Hf). cbn [deref].
    rewrite fetchData_queries, lookup_app_l by done. done. }
  split; [|done]. apply App_ext; [|rewrite fetchData_error|done].
  - by rewrite fetchData_loading.
  - simpl. by rewrite !orb_false_r.
Qed.

Lemma step_series_no_completion ev w f :
  no_completion ev → series f (state (step env ev w)) = series f (state w).
Proof.
  intros Hev. destruct ev as [a|id a| |q cb]; cbn [step].
  - unfold useEffect. cbn [state]. apply fetchData_series.
  - case_decide; [apply fetchData_series|done].
  - unfold useEffect_cleanup. by destruct (cleanup w).
  - rewrite deliver_series. destruct (queries w !! q); [|done]. by destruct cb.
Qed.

Lemma run_series_no_completion evs w f :
  Forall no_completion evs → series f (state (run env evs w)) = series f (state w).
Proof.
  revert w. induction evs as [|ev evs IH]; intros w Hevs; [done|].
  apply Forall_cons in Hevs as [Hev Hevs]. simpl.
  by rewrite IH, step_series_no_completion.
Qed.

(** X10. The last completion wins: whatever happened before (later cycles
    sent and completed, the component unmounted), when a query completes
    its array becomes the series of its setter and stays it until another
    query completes; the series then holds a point for every row the query
    has received. *)
Theorem last_completion_wins w q c evs1 evs2 :
  queries w !! q = Some c → Forall no_completion evs2 →
  let evs := evs1 ++ Deliver q OnComplete :: evs2 in
  let w' := run env evs w in
  series (setData c) (state w') = results_of q
  ∧ deref w' (results_of q) = results c ++ (point <$> rows_for q evs).
Proof.
  intros Hq Hevs2 evs w'. split.
  - subst w' evs. rewrite run_app. cbn [run].
    rewrite run_series_no_completion by done. cbn [step].
    destruct (run_lookup env evs1 w q c Hq) as (c1 & Hq1 & Hset & _).
    rewrite deliver_series, Hq1, Hset. simpl. by rewrite bool_decide_true.
  - subst w'. cbn [deref]. rewrite (run_lookup_exact env evs w q c Hq). simpl.
    apply push_rows_results.
Qed.

Lemma push_row_same_request obj (c : Query) : same_request (push_row obj c) c.
Proof. by repeat split. Qed.

Lemma push_rows_same_request rows (c : Query) :
  same_request (foldl (flip push_row) c rows) c.
Proof.
  revert c. induction rows as [|obj rows IH]; intros c; [by repeat split|].
  simpl. destruct (IH (push_row obj c)) as (? & ? & ? & ? & ? & ?).
  by repeat split.
Qed.

(** X11. A query that has been sent is never dropped or altered: after any
    run it is still there under its handle, with the request it was sent
    with, and its array has only grown at the end. *)
Theorem queries_append_only w q c evs :
  queries w !! q = Some c →
  ∃ c', queries (run env evs w) !! q = Some c'
        ∧ same_request c' c
        ∧ results c `prefix_of` results c'.
Proof.
  intros Hq. eexists. split; [by apply run_lookup_exact|]. split.
  - apply push_rows_same_request.
  - rewrite push_rows_results. by apply prefix_app_r.
Qed.

Lemma step_well_sent ev w :
  Forall (well_sent env) (queries w) → Forall (well_sent env) (queries (step env ev w)).
Proof.
  intros Hw.
  assert (Hnew : ∀ a, Forall (well_sent env) (queries w ++ new_queries env a)).
  { intros a. apply Forall_app. split; [done|].
    destruct a as [[] [] []]; repeat constructor. }
  destruct ev as [a|id a| |q cb]; cbn [step].
  - unfold useEffect. cbn [queries]. by rewrite fetchData_queries.
  - case_decide; [|done]. by rewrite fetchData_queries.
  - unfold useEffect_cleanup. by destruct (cleanup w).
  - unfold deliver. destruct (queries w !! q) as [c|] eqn:Hq; [|done].
    destruct cb as [row| |]; try done. cbn [queries with_queries].
    apply Forall_insert; [done|].
    by apply (Forall_lookup_1 _ _ _ _ Hw) in Hq.
Qed.

(** X12. Every query the component ever sends carries the connection
    parameters of the configuration and asks, in the configured bucket, for
    the field of the very metric whose series its result will replace. *)
Theorem queries_carry_config evs :
  Forall (well_sent env) (queries (run env evs initial)).
Proof.
  assert (Hgen : ∀ w, Forall (well_sent env) (queries w) →
                      Forall (well_sent env) (queries (run env evs w))).
  { induction evs as [|ev evs' IH]; intros w Hw; [done|].
    simpl. by apply IH, step_well_sent. }
  apply Hgen. constructor.
Qed.

End FurtherRuns.
End Further.

(** * The query text, the formatters and the build definitions *)

(** ** Strings *)

Lemma list_ascii_app (s1 s2 : string) :
  String.list_ascii_of_string (s1 +:+ s2) = String.list_ascii_of_string s1 ++ String.list_ascii_of_string s2.
Proof. induction s1 as [|c s1 IH]; [done|]. simpl. by rewrite IH. Qed.

Lemma list_ascii_inj (s1 s2 : string) :
  String.list_ascii_of_string s1 = String.list_ascii_of_string s2 → s1 = s2.
Proof.
  intros Heq. rewrite <-(String.string_of_list_ascii_of_string s1),
    <-(String.string_of_list_ascii_of_string s2). by rewrite Heq.
Qed.

Lemma string_app_inv_tail (s1 s2 t : string) : s1 +:+ t = s2 +:+ t → s1 = s2.
Proof.
  intros Heq. apply list_ascii_inj.
  apply (f_equal String.list_ascii_of_string) in Heq. rewrite !list_ascii_app in Heq.
  by apply app_inv_tail in Heq.
Qed.

Lemma string_app_inv_head (s t1 t2 : string) : s +:+ t1 = s +:+ t2 → t1 = t2.
Proof. induction s as [|c s IH]; [done|]. simpl. intros [=]. by apply IH. Qed.

Lemma string_length_app (s1 s2 : string) :
  String.length (s1 +:+ s2) = String.length s1 + String.length s2.
Proof. induction s1 as [|c s1 IH]; [done|]. simpl. by rewrite IH. Qed.

(** ** The Flux text *)

Lemma fluxQuery_split bucket field :
  fluxQuery bucket field = flux_pre +:+ bucket +:+ flux_mid +:+ field +:+ flux_post.
Proof. reflexivity. Qed.

(** X13. The text of a query holds the bucket and the field as they are,
    nothing added and nothing escaped, and it tells queries apart: for one
    bucket, different fields give different texts (so the three queries of
    a cycle differ), and for one field, different buckets do. *)
Theorem fluxQuery_tells_apart :
  (∀ bucket field,
     String.length (fluxQuery bucket field)
     = 284 + String.length bucket + String.length field)
  ∧ (∀ bucket field1 field2,
       fluxQuery bucket field1 = fluxQuery bucket field2 → field1 = field2)
  ∧ (∀ bucket1 bucket2 field,
       fluxQuery bucket1 field = fluxQuery bucket2 field → bucket1 = bucket2)
  ∧ (∀ bucket f g,
       fluxQuery bucket (field_of f) = fluxQuery bucket (field_of g) → f = g).
Proof.
  assert (Hfield : ∀ bucket field1 field2,
            fluxQuery bucket field1 = fluxQuery bucket field2 → field1 = field2).
  { intros bucket field1 field2. rewrite !fluxQuery_split. intros Heq.
    apply string_app_inv_head, string_app_inv_head, string_app_inv_head in Heq.
    by apply string_app_inv_tail in Heq. }
  split_and!.
  - intros bucket field. rewrite fluxQuery_split, !string_length_app.
    assert (String.length flux_pre + String.length flux_mid
            + String.length flux_post = 284) by reflexivity.
    lia.
  - done.
  - intros bucket1 bucket2 field. rewrite !fluxQuery_split. intros Heq.
    apply string_app_inv_head in Heq. by apply string_app_inv_tail in Heq.
  - intros bucket f g Heq. apply Hfield in Heq. by destruct f, g.
Qed.

(** ** The tooltip label *)

Lemma replace_slashes_length s : String.length (replace_slashes s) = String.length s.
Proof. induction s as [|c s IH]; [done|]. simpl. by rewrite IH. Qed.

Lemma replace_slashes_get s i :
  String.get i (replace_slashes s)
  = (λ c, if decide (c = "/"%char) then "-"%char else c) <$> String.get i s.
Proof.
  revert i. induction s as [|c s IH]; intros i; [done|].
  simpl. destruct i as [|i]; [done|apply IH].
Qed.

Lemma replace_slashes_id s :
  (∀ i, String.get i s ≠ Some "/"%char) → replace_slashes s = s.
Proof.
  induction s as [|c s IH]; intros Hno; [done|]. simpl.
  rewrite IH by (intros i; apply (Hno (S i))).
  case_decide as Hc; [|done]. by destruct (Hno 0); rewrite Hc.
Qed.

(** X15. The label of the tooltip is the local date and time of the point,
    written like the "Updated at" line but with a hyphen wherever that has a
    slash: same length, every other character in place, and no slash left. *)
Theorem labelFormatter_hyphens `{Host} (t : number) :
  let stamp := toLocaleString t in
  let label := labelFormatter t in
  String.length label = String.length stamp
  ∧ (∀ i, String.get i label ≠ Some "/"%char)
  ∧ (∀ i c, String.get i stamp = Some c →
       String.get i label = Some (if decide (c = "/"%char) then "-"%char else c))
  ∧ ((∀ i, String.get i stamp ≠ Some "/"%char) → label = stamp).
Proof.
  intros stamp label. unfold label, labelFormatter. fold stamp. split_and!.
  - apply replace_slashes_length.
  - intros i. rewrite replace_slashes_get.
    destruct (String.get i stamp) as [c|]; [|done]. simpl.
    case_decide as Hc; [done|]. by intros [=].
  - intros i c Hc. by rewrite replace_slashes_get, Hc.
  - apply replace_slashes_id.
Qed.

(** ** The tick labels *)

Lemma pad2_length n :
  n < 100 → String.length (padStart (pretty n) 2 "0") = 2.
Proof.
  intros Hn.
  assert (Hall : Forall (λ n, String.length (padStart (pretty n) 2 "0") = 2) (seq 0 100)).
  { apply (bool_decide_unpack _). vm_compute. exact I. }
  apply (proj1 (Forall_seq _ _ _) Hall). lia.
Qed.

Lemma pad2_inj n m :
  n < 60 → m < 60 → padStart (pretty n) 2 "0" = padStart (pretty m) 2 "0" → n = m.
Proof.
  intros Hn Hm.
  assert (Hall : Forall (λ n, Forall (λ m,
              padStart (pretty n) 2 "0" = padStart (pretty m) 2 "0" → n = m)
            (seq 0 60)) (seq 0 60)).
  { apply (bool_decide_unpack _). vm_compute. exact I. }
  pose proof (proj1 (Forall_seq _ _ _) Hall n ltac:(lia)) as Hrow.
  apply (proj1 (Forall_seq _ _ _) Hrow). lia.
Qed.

Lemma string_length_2 s :
  String.length s = 2 → ∃ a b, s = String a (String b EmptyString).
Proof. destruct s as [|a [|b [|c s]]]; try done. by exists a, b. Qed.

(** X14. For a valid time the label of a tick on the time axis is the
    two-digit hour, a colon and the two-digit minute: five characters, and
    two times of day get the same label only if hour and minute agree. *)
Theorem tickFormatter_hh_mm `{Host} (getHours getMinutes : number → option nat) t h m :
  getHours t = Some h → getMinutes t = Some m → h < 24 → m < 60 →
  String.length (tickFormatter getHours getMinutes t) = 5
  ∧ String.get 2 (tickFormatter getHours getMinutes t) = Some ":"%char
  ∧ ∀ t' h' m',
      getHours t' = Some h' → getMinutes t' = Some m' → h' < 24 → m' < 60 →
      tickFormatter getHours getMinutes t' = tickFormatter getHours getMinutes t →
      h' = h ∧ m' = m.
Proof.
  intros Hh Hm Hh24 Hm60. unfold tickFormatter. rewrite Hh, Hm. simpl.
  destruct (string_length_2 _ (pad2_length h ltac:(lia))) as (a & b & Hhh).
  destruct (string_length_2 _ (pad2_length m ltac:(lia))) as (c & d & Hmm).
  rewrite Hhh, Hmm. split_and!; [done|done|].
  intros t' h' m' Hh' Hm' Hh24' Hm60'. rewrite Hh', Hm'. simpl.
  destruct (string_length_2 _ (pad2_length h' ltac:(lia))) as (a' & b' & Hhh').
  destruct (string_length_2 _ (pad2_length m' ltac:(lia))) as (c' & d' & Hmm').
  rewrite Hhh', Hmm'. simpl. intros [= -> -> -> ->].
  split; apply pad2_inj; try lia; congruence.
Qed.

(** ** The definitions for the bundler *)

Lemma foldl_insert_list_to_map (l : list (string * string)) (acc : gmap string string) :
  NoDup l.*1 →
  foldl (λ prev '(k, v), <[k:=v]> prev) acc l = list_to_map l ∪ acc.
Proof.
  revert acc. induction l as [|[k v] l IH]; intros acc Hnd.
  - simpl. by rewrite (left_id_L ∅ (∪)).
  - apply NoDup_cons in Hnd as [Hk Hnd]. simpl. rewrite IH by done.
    rewrite <-insert_union_l. symmetry. apply insert_union_r.
    by apply not_elem_of_list_to_map_1.
Qed.

Global Instance process_env_inj : Inj (=) (=) (String.append "process.env.").
Proof. intros k1 k2. apply string_app_inv_head. Qed.

Lemma define_keys (JSON_stringify : string → string) (env : list (string * string)) :
  ((λ kv : string * string, ("process.env." +:+ kv.1, JSON_stringify kv.2)) <$> env).*1
  = String.append "process.env." <$> env.*1.
Proof. induction env as [|[k v] env IH]; [done|]. csimpl. by f_equal. Qed.

(** X16. The bundler gets exactly one definition per variable of the [.env]
    file: [process.env.NAME] for the variable [NAME], holding the JSON text
    of its value, and no other definition. *)
Theorem envKeys_per_variable (JSON_stringify : string → string)
    (env : list (string * string)) :
  NoDup env.*1 →
  ∃ defs,
    envKeys JSON_stringify (Some env) = Normal defs
    ∧ (∀ k v, (k, v) ∈ env → defs !! ("process.env." +:+ k) = Some (JSON_stringify v))
    ∧ (∀ key text, defs !! key = Some text →
         ∃ k v, (k, v) ∈ env ∧ key = "process.env." +:+ k ∧ text = JSON_stringify v)
    ∧ size defs = length env.
Proof.
  intros Hnd.
  set (define := λ kv : string * string, ("process.env." +:+ kv.1, JSON_stringify kv.2)).
  assert (Hfold : foldl (λ prev '(next, v),
                     <["process.env." +:+ next := JSON_stringify v]> prev) ∅ env
                  = (list_to_map (define <$> env) : gmap string string)).
  { rewrite <-(right_id_L ∅ (∪) (list_to_map (define <$> env) : gmap string string)).
    rewrite <-foldl_insert_list_to_map.
    - rewrite foldl_fmap. clear Hnd. generalize (∅ : gmap string string).
      induction env as [|[k v] env IH]; intros acc; [done|]. simpl. apply IH.
    - unfold define. rewrite define_keys. by apply (NoDup_fmap_2 _). }
  assert (Hnd' : NoDup (define <$> env).*1).
  { unfold define. rewrite define_keys. by apply (NoDup_fmap_2 _). }
  eexists. split; [done|]. rewrite Hfold. split_and!.
  - intros k v Hkv. apply elem_of_list_to_map; [done|].
    apply list_elem_of_fmap. by exists (k, v).
  - intros key text Hlook. apply elem_of_list_to_map in Hlook; [|done].
    apply list_elem_of_fmap in Hlook as ([k v] & [= -> ->] & Hkv).
    by exists k, v.
  - by rewrite map_size_list_to_map, length_fmap.
Qed.

(** ** The configuration *)

Lemma js_or_empty (env : gmap string string) name :
  js_or (env !! name) "" = "" ↔ unusable env name.
Proof.
  unfold unusable. destruct (env !! name) as [v|]; simpl.
  - case_decide as Hv.
    + subst v. split; [by right|done].
    + split; [done|]. by intros [?|[=]].
  - split; [by left|done].
Qed.

(** X17. The configuration lacks a parameter (holds the empty string for
    it) exactly when the variable of that parameter is not defined or is
    defined as the empty string. *)
Theorem config_incomplete_iff (env : gmap string string) :
  incomplete (influxDB (config env))
  ↔ unusable env "REACT_APP_INFLUXDB_URL" ∨ unusable env "REACT_APP_INFLUXDB_ORG"
    ∨ unusable env "REACT_APP_INFLUXDB_BUCKET" ∨ unusable env "REACT_APP_INFLUXDB_TOKEN".
Proof. unfold incomplete. simpl. by rewrite !js_or_empty. Qed.

(** ** The further properties on concrete runs *)

Lemma getLatestValue_trailing_gaps_witness :
  getLatestValue example_series_gap = getLatestValue [sample 0 (present 201%Z)].
Proof.
  apply (@getLatestValue_trailing_gaps tenths_host [sample 0 (present 201%Z)]
           [sample 300000 null; sample 600000 undefined]).
  repeat constructor.
Defined.

Lemma latest_value_of_fetched_rows_witness :
  let w' := run example_env (temperature_arrives ++ [Deliver 0 OnComplete]) mounted in
  getLatestValue (deref w' (temperatureData (state w'))) = Normal "20.4".
Proof.
  apply (proj2 (@latest_value_of_fetched_rows tenths_host example_env mounted 0
                  (query_of example_env "temperature" SetTemperatureData)
                  temperature_arrives eq_refl eq_refl)
           [sample_row 0 (present 201%Z); sample_row 300000 null]
           (sample_row 600000 (present 204%Z)) 204%Z []);
    [reflexivity|reflexivity|constructor].
Defined.

Lemma failure_is_permanent_witness :
  let w' := run example_env (IntervalElapsed 0 all_issued :: all_complete 3)
              after_failed_cycle in
  error (state w') = true
  ∧ ∀ stamp charts, App w' ≠ Normal (Dashboard stamp charts).
Proof.
  apply (@failure_is_permanent tenths_host example_env after_failed_cycle
           (IntervalElapsed 0 all_issued :: all_complete 3)).
  reflexivity.
Defined.

Lemma each_tick_runs_a_cycle_witness :
  let w' := @run tenths_host example_env
              [ Mount all_issued; IntervalElapsed 0 all_issued; Deliver 0 OnComplete;
                IntervalElapsed 0 all_issued; IntervalElapsed 7 all_issued ]
              initial in
  timers w' = ({[0]} : gset nat) ∧ fetchData_calls w' = 3.
Proof.
  apply (@each_tick_runs_a_cycle tenths_host example_env all_issued
           [ IntervalElapsed 0 all_issued; Deliver 0 OnComplete;
             IntervalElapsed 0 all_issued; IntervalElapsed 7 all_issued ]).
  repeat constructor.
Defined.

Lemma last_completion_wins_witness :
  let w := fetchData example_env all_issued (fetchData example_env all_issued initial) in
  let evs := [ Deliver 3 (OnNext (sample_row 600000 (present 204%Z)));
               Deliver 0 (OnNext (sample_row 0 (present 201%Z)));
               Deliver 3 OnComplete; Unmount ]
             ++ Deliver 0 OnComplete
                :: [ Deliver 4 (OnNext (sample_row 0 (present 550%Z))); Deliver 5 OnError ] in
  let w' := run example_env evs w in
  series SetTemperatureData (state w') = results_of 0
  ∧ deref w' (results_of 0) = [ sample 0 (present 201%Z) ].
Proof.
  apply (@last_completion_wins tenths_host example_env
           (fetchData example_env all_issued (fetchData example_env all_issued initial))
           0 (query_of example_env "temperature" SetTemperatureData)
           [ Deliver 3 (OnNext (sample_row 600000 (present 204%Z)));
             Deliver 0 (OnNext (sample_row 0 (present 201%Z)));
             Deliver 3 OnComplete; Unmount ]
           [ Deliver 4 (OnNext (sample_row 0 (present 550%Z))); Deliver 5 OnError ]).
  - reflexivity.
  - repeat constructor.
Defined.

Lemma queries_append_only_witness :
  ∃ c', queries (run example_env (temperature_arrives ++ [Unmount]) mounted) !! 0 = Some c'
        ∧ same_request c' (query_of example_env "temperature" SetTemperatureData)
        ∧ [] `prefix_of` results c'.
Proof.
  apply (@queries_append_only tenths_host example_env mounted 0
           (query_of example_env "temperature" SetTemperatureData)
           (temperature_arrives ++ [Unmount])).
  reflexivity.
Defined.

Lemma tickFormatter_hh_mm_witness :
  String.length (@tickFormatter tenths_host utc_hours utc_minutes 3780000%Z) = 5
  ∧ String.get 2 (@tickFormatter tenths_host utc_hours utc_minutes 3780000%Z)
    = Some ":"%char
  ∧ ∀ t' h' m',
      utc_hours t' = Some h' → utc_minutes t' = Some m' → h' < 24 → m' < 60 →
      @tickFormatter tenths_host utc_hours utc_minutes t'
      = @tickFormatter tenths_host utc_hours utc_minutes 3780000%Z →
      h' = 1 ∧ m' = 3.
Proof.
  apply (@tickFormatter_hh_mm tenths_host utc_hours utc_minutes 3780000%Z 1 3);
    [reflexivity|reflexivity|lia|lia].
Defined.

Example tick_label_of_example_time :
  @tickFormatter tenths_host utc_hours utc_minutes 3780000%Z = "01:03".
Proof. reflexivity. Qed.

Lemma envKeys_per_variable_witness :
  ∃ defs,
    envKeys quoted (Some example_dotenv) = Normal defs
    ∧ (∀ k v, (k, v) ∈ example_dotenv →
         defs !! ("process.env." +:+ k) = Some (quoted v))
    ∧ (∀ key text, defs !! key = Some text →
         ∃ k v, (k, v) ∈ example_dotenv ∧ key = "process.env." +:+ k
                ∧ text = quoted v)
    ∧ size defs = 2.
Proof.
  apply (envKeys_per_variable quoted example_dotenv).
  apply (bool_decide_unpack _). vm_compute. exact I.
Defined.
